(** * LangChainAdapter: a shallow embedding of [langchain-adapter.ts]

    The adapter turns the result of a LangChain function (an incremental
    stream of message chunks, one message chunk, or a string) into a
    byte stream of server-sent-event records.  The development has four
    parts:

    - [Js]: JavaScript values as trees, property access, truthiness,
      [JSON.stringify] and the state-and-exception monad in which the
      stateful code is written;
    - [Props]: a heap of objects and arrays, [transformProps] on it, and
      the constructor of the message classes that it imports from
      [@langchain/core];
    - [Streams]: the [ReadableStreamDefaultController] of the host
      platform (Streams Standard), the pull loop of [streamResult], its
      [cleanup], and [SingleChunkReadableStream];
    - [Adapter]: [LangChainAdapter.stream], which ties them together.

    Strings stand for their UTF-8 encoding, so [TextEncoder.encode] is
    the conversion of a string to its bytes.  Numbers are floating point
    in JavaScript and are not part of the value universe. *)

From Stdlib Require Import String Ascii List Bool Arith Lia.
From stdpp Require Import base list strings pretty.
Import ListNotations.

(* ===================================================================== *)
(** * JavaScript values                                                   *)
(* ===================================================================== *)

Module Js.

#[warnings="-register-all"]
Inductive JsValue : Type :=
| JUndefined
| JNull
| JBool (b : bool)
| JStr (s : string)
| JArr (elems : list JsValue)
| JObj (fields : list (string * JsValue)).

(** What a [throw] or a rejected promise carries. *)
Inductive Exn : Type :=
| TypeError (msg : string)
| Error (msg : string)
| Rejected (reason : JsValue).

Inductive result (A : Type) : Type :=
| Ok (a : A)
| Throw (e : Exn).
Arguments Ok {A} a.
Arguments Throw {A} e.

(** ** State and exceptions

    A computation reads and writes a state [S] and either returns or
    throws; what it wrote before throwing stays written. *)

Definition M (S A : Type) : Type := S -> result A * S.

Definition ret {S A} (a : A) : M S A := fun s => (Ok a, s).

Definition bind {S A B} (m : M S A) (k : A -> M S B) : M S B :=
  fun s =>
    match m s with
    | (Ok a, s') => k a s'
    | (Throw e, s') => (Throw e, s')
    end.

Definition throw {S A} (e : Exn) : M S A := fun s => (Throw e, s).

(** [try { body } catch (e) { handler e }] *)
Definition try_catch {S A} (body : M S A) (handler : Exn -> M S A) : M S A :=
  fun s =>
    match body s with
    | (Ok a, s') => (Ok a, s')
    | (Throw e, s') => handler e s'
    end.

Definition get {S} : M S S := fun s => (Ok s, s).
Definition modify {S} (f : S -> S) : M S unit := fun s => (Ok tt, f s).
Definition lift {S A} (r : result A) : M S A := fun s => (r, s).

Declare Scope js_scope.
Delimit Scope js_scope with js.
Notation "'let*' x ':=' m 'in' k" := (bind m (fun x => k))
  (at level 10, x name, m at level 100, k at level 200) : js_scope.
Notation "m ';;;' k" := (bind m (fun _ => k))
  (at level 100, k at level 200, right associativity) : js_scope.

(** ** Truthiness, property access *)

Definition nullish (v : JsValue) : bool :=
  match v with JUndefined | JNull => true | _ => false end.

(** [v ? a : b] takes the first branch unless [v] is [undefined], [null],
    [false] or the empty string (the falsy values of this universe). *)
Definition truthy (v : JsValue) : bool :=
  match v with
  | JUndefined | JNull => false
  | JBool b => b
  | JStr s => negb (String.eqb s "")
  | JArr _ | JObj _ => true
  end.

(** The value an object holds under a key, if it has the key. *)
Fixpoint assoc {V : Type} (k : string) (fs : list (string * V)) : option V :=
  match fs with
  | [] => None
  | (k', v) :: rest => if String.eqb k k' then Some v else assoc k rest
  end.

Definition field (k : string) (fs : list (string * JsValue)) : JsValue :=
  match assoc k fs with
  | Some v => v
  | None => JUndefined
  end.

(** [v.k] for a [v] that is neither [undefined] nor [null].  The adapter
    reads only [lc_kwargs], [additional_kwargs], [function_call] and
    [content], none of which strings, booleans or arrays define. *)
Definition prop_of (v : JsValue) (k : string) : JsValue :=
  match v with
  | JObj fs => field k fs
  | _ => JUndefined
  end.

(** [v.k]: a [TypeError] on [undefined] and [null]. *)
Definition get_prop (v : JsValue) (k : string) : result JsValue :=
  if nullish v
  then Throw (TypeError ("Cannot read properties of undefined or null: " +:+ k))
  else Ok (prop_of v k).

(** [v?.k]: [undefined] on [undefined] and [null]. *)
Definition opt_prop (v : JsValue) (k : string) : JsValue :=
  if nullish v then JUndefined else prop_of v k.

(** ** JSON.stringify *)

Definition dquote : ascii := ascii_of_nat 34.
Definition newline : ascii := ascii_of_nat 10.
Definition nl : string := String newline EmptyString.

Definition hex_digit (n : nat) : ascii :=
  nth n (list_ascii_of_string "0123456789abcdef") "0"%char.

(** QuoteJSONString on one character: the two-character escapes, then
    [\u00xx] for the other control characters, else the character. *)
Definition escape_char (c : ascii) : string :=
  let n := nat_of_ascii c in
  if n =? 34 then String "\"%char (String dquote EmptyString)
  else if n =? 92 then "\\"
  else if n =? 8 then "\b"
  else if n =? 12 then "\f"
  else if n =? 10 then "\n"
  else if n =? 13 then "\r"
  else if n =? 9 then "\t"
  else if n <? 32 then
    "\u00" +:+ String (hex_digit (n / 16)) (String (hex_digit (n mod 16)) EmptyString)
  else String c EmptyString.

Fixpoint escape (s : string) : string :=
  match s with
  | EmptyString => EmptyString
  | String c rest => escape_char c +:+ escape rest
  end.

Definition quote (s : string) : string :=
  String dquote (escape s +:+ String dquote EmptyString).

Fixpoint join (sep : string) (l : list string) : string :=
  match l with
  | [] => EmptyString
  | [x] => x
  | x :: rest => x +:+ sep +:+ join sep rest
  end.

(** SerializeJSONProperty: [None] is the [undefined] result, which drops
    a property from an object and prints as [null] in an array. *)
Fixpoint serialize (v : JsValue) : option string :=
  match v with
  | JUndefined => None
  | JNull => Some "null"
  | JBool b => Some (if b then "true" else "false")
  | JStr s => Some (quote s)
  | JArr elems =>
      Some ("[" +:+
            join "," (List.map (fun x => match serialize x with
                                         | Some t => t
                                         | None => "null"
                                         end) elems)
            +:+ "]")
  | JObj fields =>
      Some ("{" +:+
            join "," (List.concat
                        (List.map (fun p => match serialize (snd p) with
                                            | Some t => [quote (fst p) +:+ ":" +:+ t]
                                            | None => []
                                            end) fields))
            +:+ "}")
  end.

(** [JSON.stringify(v)] as used in a string concatenation: the
    [undefined] result concatenates as the word. *)
Definition JSON_stringify (v : JsValue) : string :=
  match serialize v with
  | Some s => s
  | None => "undefined"
  end.

(** The keys that [JSON.stringify] prints for an object: those whose
    value does not serialize to [undefined]. *)
Definition is_printed (v : JsValue) : bool :=
  match serialize v with
  | Some _ => true
  | None => false
  end.

Definition printed_keys (fields : list (string * JsValue)) : list string :=
  List.map fst (List.filter (fun p => is_printed (snd p)) fields).

(** A text without a line feed. *)
Definition no_newline (s : string) : Prop :=
  List.Forall (fun c => c <> newline) (list_ascii_of_string s).

(** [new TextEncoder().encode(s)] *)
Definition encode (s : string) : list Byte.byte := list_byte_of_string s.

(** Test notation: a JSON text written with apostrophes for the double
    quotes. *)
Definition dq (s : string) : string :=
  string_of_list_ascii
    (List.map (fun c => if Ascii.eqb c "'"%char then dquote else c)
              (list_ascii_of_string s)).

End Js.

(* ===================================================================== *)
(** * The output stream                                                   *)
(* ===================================================================== *)

Module Streams.
Import Js.
Local Open Scope js_scope.

(** A frame is the [Uint8Array] handed to [controller.enqueue]. *)
Definition Frame : Type := list Byte.byte.

Inductive StreamState : Type :=
| Readable
| Closed
| Errored (e : Exn).

(** What a [read()] of the downstream consumer settles with. *)
Inductive Delivery : Type :=
| Chunk (f : Frame)
| EndOfStream
| Failure (e : Exn).

(** What a [reader.read()] on the upstream cursor settles with, and what
    a [reader.cancel()] does (a synchronous throw and a rejection both
    end in the [catch] around the [await]). *)
Inductive ReadOutcome : Type :=
| ReadValue (value : JsValue)
| ReadDone
| ReadRejects (e : Exn).

Inductive CancelOutcome : Type :=
| CancelResolves
| CancelThrows (e : Exn).

(** The upstream [IterableReadableStream]: whether a reader already
    holds it, and how its cursor will answer, call after call.  A cursor
    whose answers run out never settles again. *)
Record Upstream : Type := mkUpstream {
  locked : bool;
  read_script : list ReadOutcome;
  cancel_script : list CancelOutcome
}.

(** One timeline of what the adapter did to its sink and its cursor and
    of what the consumer was given. *)
Inductive TraceEvent : Type :=
| Enqueued (f : Frame)          (* controller.enqueue(f) returned *)
| EnqueueRefused (f : Frame)    (* controller.enqueue(f) threw *)
| CloseCalled                   (* controller.close() returned *)
| CloseRefused                  (* controller.close() threw *)
| StreamClosed                  (* the stream became closed *)
| SinkErrored (e : Exn)         (* controller.error(e) errored the stream *)
| ErrorIgnored (e : Exn)        (* controller.error(e) on a stream not readable *)
| CursorCancelCalled            (* reader.cancel() was called *)
| Delivered (d : Delivery).     (* a read() of the consumer settled *)

Inductive PullState : Type :=
| NotStarted      (* pull has not been called *)
| AwaitingRead    (* pull is suspended at [await reader.read()] *)
| Returned.       (* pull has returned *)

Inductive Mode : Type :=
| StreamPull      (* the stream built by streamResult *)
| SingleShot.     (* a SingleChunkReadableStream *)

(** The [ReadableStreamDefaultController] and its stream (Streams
    Standard): state, close-requested flag, queue of chunks and number
    of pending read requests of the consumer. *)
Record Controller : Type := mkController {
  state : StreamState;
  closeRequested : bool;
  queue : list Frame;
  readRequests : nat
}.

Record World : Type := mkWorld {
  mode : Mode;
  ctrl : Controller;
  reads : list ReadOutcome;       (* the cursor's future read() answers *)
  cancels : list CancelOutcome;   (* the cursor's future cancel() answers *)
  pull : PullState;
  trace : list TraceEvent
}.

Definition set_ctrl (c : Controller) : M World unit :=
  modify (fun w => mkWorld (mode w) c (reads w) (cancels w) (pull w) (trace w)).
Definition set_reads (r : list ReadOutcome) : M World unit :=
  modify (fun w => mkWorld (mode w) (ctrl w) r (cancels w) (pull w) (trace w)).
Definition set_cancels (c : list CancelOutcome) : M World unit :=
  modify (fun w => mkWorld (mode w) (ctrl w) (reads w) c (pull w) (trace w)).
Definition set_pull (p : PullState) : M World unit :=
  modify (fun w => mkWorld (mode w) (ctrl w) (reads w) (cancels w) p (trace w)).
Definition log (es : list TraceEvent) : M World unit :=
  modify (fun w => mkWorld (mode w) (ctrl w) (reads w) (cancels w) (pull w)
                           (trace w ++ es)).

(** ** The controller, as the Streams Standard defines it *)

Definition is_readable (s : StreamState) : bool :=
  match s with Readable => true | _ => false end.

(** ReadableStreamDefaultControllerCanCloseOrEnqueue *)
Definition can_close_or_enqueue (c : Controller) : bool :=
  negb (closeRequested c) && is_readable (state c).

(** ReadableStreamClose: the stream closes and every pending read
    request is told so. *)
Definition stream_close : M World unit :=
  let* w := get in
  let c := ctrl w in
  set_ctrl (mkController Closed (closeRequested c) (queue c) 0) ;;;
  log (StreamClosed :: repeat (Delivered EndOfStream) (readRequests c)).

(** [controller.enqueue(f)]: throws unless the stream is readable and
    no close was requested; hands the chunk to a pending read request if
    there is one, else queues it. *)
Definition controller_enqueue (f : Frame) : M World unit :=
  let* w := get in
  let c := ctrl w in
  if can_close_or_enqueue c then
    match readRequests c with
    | S n =>
        set_ctrl (mkController (state c) (closeRequested c) (queue c) n) ;;;
        log [Enqueued f; Delivered (Chunk f)]
    | O =>
        set_ctrl (mkController (state c) (closeRequested c) (queue c ++ [f]) 0) ;;;
        log [Enqueued f]
    end
  else
    log [EnqueueRefused f] ;;;
    throw (TypeError "Invalid state: Controller is already closed").

(** [controller.close()]: throws unless the stream is readable and no
    close was requested; the stream closes at once if the queue is empty
    and otherwise when the consumer has drained it. *)
Definition controller_close : M World unit :=
  let* w := get in
  let c := ctrl w in
  if can_close_or_enqueue c then
    set_ctrl (mkController (state c) true (queue c) (readRequests c)) ;;;
    log [CloseCalled] ;;;
    match queue c with
    | [] => stream_close
    | _ :: _ => ret tt
    end
  else
    log [CloseRefused] ;;;
    throw (TypeError "Invalid state: Controller is already closed").

(** [controller.error(e)]: nothing on a stream that is not readable;
    else the queue is emptied, the stream is errored and every pending
    read request is rejected. *)
Definition controller_error (e : Exn) : M World unit :=
  let* w := get in
  let c := ctrl w in
  match state c with
  | Readable =>
      set_ctrl (mkController (Errored e) (closeRequested c) [] 0) ;;;
      log (SinkErrored e :: repeat (Delivered (Failure e)) (readRequests c))
  | _ => log [ErrorIgnored e]
  end.

(** [reader.cancel()] on the upstream cursor. *)
Definition reader_cancel : M World unit :=
  log [CursorCancelCalled] ;;;
  let* w := get in
  match cancels w with
  | [] => ret tt
  | CancelResolves :: rest => set_cancels rest
  | CancelThrows e :: rest => set_cancels rest ;;; throw e
  end.

(** ** Frames *)

(** The properties of the [delta] object literal, in the order they are
    written: the spread adds [function_call] when the call is truthy. *)
Definition delta_fields (content functionCall : JsValue)
  : list (string * JsValue) :=
  [("role", JStr "assistant"); ("content", content)]
  ++ (if truthy functionCall
      then [("function_call", functionCall)]
      else []).

Definition delta (content functionCall : JsValue) : JsValue :=
  JObj (delta_fields content functionCall).

Definition ChatCompletionChunk (content functionCall : JsValue) : JsValue :=
  JObj [("choices", JArr [JObj [("delta", delta content functionCall)]])].

Definition payload_of (chunk : JsValue) : Frame :=
  encode ("data: " +:+ JSON_stringify chunk +:+ nl +:+ nl).

Definition DONE_payload : Frame := encode ("data: [DONE]" +:+ nl +:+ nl).

(** ** streamResult *)

(** [cleanup(controller?)].  The argument says whether a controller was
    passed.  [reader] is assigned once, by [getReader()], so the test
    [if (reader)] always succeeds. *)
Definition cleanup (controller : bool) : M World unit :=
  (if controller
   then try_catch controller_close (fun _ => ret tt)
   else ret tt) ;;;
  try_catch reader_cancel (fun _ => ret tt).

(** The fields the pull loop takes from a fragment. *)
Definition fragment_functionCall (lc_kwargs : JsValue) : JsValue :=
  opt_prop (opt_prop lc_kwargs "additional_kwargs") "function_call".
Definition fragment_content (value : JsValue) : JsValue :=
  opt_prop (opt_prop value "lc_kwargs") "content".

(** One turn of the [while (true)] loop of [pull], from the moment
    [reader.read()] settles with [r] to the next [await reader.read()]
    or to the [return].  The result says where [pull] is afterwards. *)
Definition pull_iteration (r : ReadOutcome) : M World PullState :=
  try_catch
    (match r with
     | ReadRejects e => throw e
     | ReadDone =>
         controller_enqueue DONE_payload ;;;
         cleanup true ;;;
         ret Returned
     | ReadValue value =>
         let* lc_kwargs := lift (get_prop value "lc_kwargs") in
         let functionCall := fragment_functionCall lc_kwargs in
         let content := fragment_content value in
         controller_enqueue
           (payload_of (ChatCompletionChunk content functionCall)) ;;;
         ret AwaitingRead
     end)
    (fun error =>
       controller_error error ;;;
       cleanup true ;;;
       ret Returned).

(** The [cancel()] method of the underlying source. *)
Definition source_cancel : M World unit :=
  let* w := get in
  match mode w with
  | StreamPull => cleanup false
  | SingleShot => ret tt
  end.

(** ** What happens to a stream

    JavaScript runs each of these to completion before the next. *)
Inductive Event : Type :=
| PlatformPull       (* the platform calls pull(controller) *)
| UpstreamSettles    (* the awaited reader.read() settles *)
| ConsumerRead       (* the consumer calls read() *)
| ConsumerCancel.    (* the consumer calls cancel() *)

(** The platform calls [pull] when the stream has started, can still
    take chunks and wants one; while a call is running it calls no
    other. A single-shot source has no [pull]. *)
Definition platform_pull : M World unit :=
  let* w := get in
  match mode w, pull w with
  | StreamPull, NotStarted =>
      if can_close_or_enqueue (ctrl w) then set_pull AwaitingRead else ret tt
  | _, _ => ret tt
  end.

Definition upstream_settles : M World unit :=
  let* w := get in
  match mode w, pull w, reads w with
  | StreamPull, AwaitingRead, r :: rest =>
      set_reads rest ;;;
      let* p := pull_iteration r in
      set_pull p
  | _, _, _ => ret tt
  end.

(** [read()] of the consumer (ReadableStreamDefaultReaderRead and the
    controller's pull steps). *)
Definition consumer_read : M World unit :=
  let* w := get in
  let c := ctrl w in
  match state c with
  | Closed => log [Delivered EndOfStream]
  | Errored e => log [Delivered (Failure e)]
  | Readable =>
      match queue c with
      | f :: rest =>
          set_ctrl (mkController Readable (closeRequested c) rest (readRequests c)) ;;;
          log [Delivered (Chunk f)] ;;;
          match rest with
          | [] => if closeRequested c then stream_close else ret tt
          | _ :: _ => ret tt
          end
      | [] =>
          set_ctrl (mkController Readable (closeRequested c) [] (S (readRequests c)))
      end
  end.

(** [cancel()] of the consumer (ReadableStreamCancel): settled at once
    on a stream that is closed or errored; else the stream closes, the
    queue is emptied and the source's [cancel()] runs. *)
Definition consumer_cancel : M World unit :=
  let* w := get in
  let c := ctrl w in
  match state c with
  | Closed => ret tt
  | Errored e => throw e
  | Readable =>
      stream_close ;;;
      (let* w' := get in
       let c' := ctrl w' in
       set_ctrl (mkController (state c') (closeRequested c') [] (readRequests c'))) ;;;
      source_cancel
  end.

Definition handle (ev : Event) : M World unit :=
  match ev with
  | PlatformPull => platform_pull
  | UpstreamSettles => upstream_settles
  | ConsumerRead => consumer_read
  | ConsumerCancel => consumer_cancel
  end.

Definition step (w : World) (ev : Event) : World := snd (handle ev w).

Definition run (w : World) (evs : list Event) : World := fold_left step evs w.

(** ** Construction *)

Definition fresh (m : Mode) (rs : list ReadOutcome) (cs : list CancelOutcome)
  : World :=
  mkWorld m (mkController Readable false [] 0) rs cs NotStarted [].

(** [streamResult(streamedChain)]: [getReader()] throws on a locked
    stream. *)
Definition streamResult (streamedChain : Upstream) : result World :=
  if locked streamedChain
  then Throw (TypeError "ReadableStream is locked")
  else Ok (fresh StreamPull (read_script streamedChain)
                 (cancel_script streamedChain)).

(** The [start(controller)] method of a [SingleChunkReadableStream]. *)
Definition single_start (content functionCall : JsValue) : M World unit :=
  controller_enqueue (payload_of (ChatCompletionChunk content functionCall)) ;;;
  controller_enqueue DONE_payload ;;;
  controller_close.

(** [new SingleChunkReadableStream(content, functionCall)]: the default
    [content = ""] replaces an [undefined] argument; [start] runs inside
    the constructor, which throws what [start] throws. *)
Definition SingleChunkReadableStream (content functionCall : JsValue)
  : result World :=
  let content := match content with
                 | JUndefined => JStr EmptyString
                 | _ => content
                 end in
  match single_start content functionCall (fresh SingleShot [] []) with
  | (Ok _, w) => Ok w
  | (Throw e, _) => Throw e
  end.

(** ** Reading a trace *)

(** The frames the adapter put into the stream, in order. *)
Fixpoint emitted_of (t : list TraceEvent) : list Frame :=
  match t with
  | [] => []
  | Enqueued f :: rest => f :: emitted_of rest
  | _ :: rest => emitted_of rest
  end.
Definition emitted (w : World) : list Frame := emitted_of (trace w).

(** What the consumer's reads settled with, in order. *)
Fixpoint observed_of (t : list TraceEvent) : list Delivery :=
  match t with
  | [] => []
  | Delivered d :: rest => d :: observed_of rest
  | _ :: rest => observed_of rest
  end.
Definition observed (w : World) : list Delivery := observed_of (trace w).

(** The frames among the consumer's deliveries. *)
Fixpoint chunks_of (ds : list Delivery) : list Frame :=
  match ds with
  | [] => []
  | Chunk f :: rest => f :: chunks_of rest
  | _ :: rest => chunks_of rest
  end.

(** How often [reader.cancel()] was called. *)
Fixpoint cancel_calls_of (t : list TraceEvent) : nat :=
  match t with
  | [] => 0
  | CursorCancelCalled :: rest => S (cancel_calls_of rest)
  | _ :: rest => cancel_calls_of rest
  end.
Definition cancel_calls (w : World) : nat := cancel_calls_of (trace w).

(** Where in a trace an event of some kind first occurs, and whether
    the first of one kind comes before the first of another. *)
Fixpoint first_index (p : TraceEvent -> bool) (t : list TraceEvent) : option nat :=
  match t with
  | [] => None
  | e :: rest =>
      if p e then Some 0
      else match first_index p rest with
           | Some i => Some (S i)
           | None => None
           end
  end.

Definition occurs_before (p q : TraceEvent -> bool) (t : list TraceEvent) : Prop :=
  exists i j, first_index p t = Some i /\ first_index q t = Some j /\ i < j.

Fixpoint frame_eqb (a b : Frame) : bool :=
  match a, b with
  | [], [] => true
  | x :: a', y :: b' => Byte.eqb x y && frame_eqb a' b'
  | _, _ => false
  end.

Definition is_enqueue_of (f : Frame) (e : TraceEvent) : bool :=
  match e with Enqueued g => frame_eqb f g | _ => false end.
Definition is_close_called (e : TraceEvent) : bool :=
  match e with CloseCalled => true | _ => false end.
Definition is_cursor_cancel (e : TraceEvent) : bool :=
  match e with CursorCancelCalled => true | _ => false end.
Definition is_sink_errored (e : TraceEvent) : bool :=
  match e with SinkErrored _ => true | _ => false end.

(** The consumer is told that the stream is complete when the
    controller is closed, when the stream becomes closed, and when a
    read settles with end-of-stream. *)
Definition signals_completion (e : TraceEvent) : bool :=
  match e with
  | CloseCalled | StreamClosed | Delivered EndOfStream => true
  | _ => false
  end.

(** ** The frames of a run *)

(** The frame the pull loop builds from a fragment. *)
Definition fragment_payload (value : JsValue) : Frame :=
  payload_of (ChatCompletionChunk
                (fragment_content value)
                (fragment_functionCall (prop_of value "lc_kwargs"))).

Definition is_content_frame (f : Frame) : Prop :=
  exists content functionCall,
    f = payload_of (ChatCompletionChunk content functionCall).

(** Content frames, then at most one terminal frame. *)
Definition well_terminated (fs : list Frame) : Prop :=
  exists cs, Forall is_content_frame cs /\ (fs = cs \/ fs = cs ++ [DONE_payload]).

(** The frame that the answer of one upstream read stands for: none for
    a rejection, and none for a fragment that is [undefined] or [null],
    which the pull loop cannot take apart. *)
Definition frame_of_read (r : ReadOutcome) : option Frame :=
  match r with
  | ReadValue v => if nullish v then None else Some (fragment_payload v)
  | ReadDone => Some DONE_payload
  | ReadRejects _ => None
  end.

Definition is_fragment (r : ReadOutcome) : bool :=
  match r with
  | ReadValue v => negb (nullish v)
  | _ => false
  end.

(** The frames a step adds to the stream, and where it leaves [pull]
    and the cursor. *)
Definition new_frames (w : World) (ev : Event) : list Frame :=
  match ev, mode w, pull w, reads w with
  | UpstreamSettles, StreamPull, AwaitingRead, r :: _ =>
      if can_close_or_enqueue (ctrl w)
      then match frame_of_read r with Some f => [f] | None => [] end
      else []
  | _, _, _, _ => []
  end.

Definition next_pull (w : World) (ev : Event) : PullState :=
  match ev, mode w, pull w, reads w with
  | PlatformPull, StreamPull, NotStarted, _ =>
      if can_close_or_enqueue (ctrl w) then AwaitingRead else NotStarted
  | UpstreamSettles, StreamPull, AwaitingRead, r :: _ =>
      if can_close_or_enqueue (ctrl w) && is_fragment r
      then AwaitingRead else Returned
  | _, _, p, _ => p
  end.

Definition next_reads (w : World) (ev : Event) : list ReadOutcome :=
  match ev, mode w, pull w, reads w with
  | UpstreamSettles, StreamPull, AwaitingRead, _ :: rest => rest
  | _, _, _, rs => rs
  end.

(** How many upstream reads settle after the platform's first call of
    [pull] in a schedule. *)
Fixpoint count_settles (evs : list Event) : nat :=
  match evs with
  | [] => 0
  | UpstreamSettles :: rest => S (count_settles rest)
  | _ :: rest => count_settles rest
  end.

Fixpoint settles_after_pull (evs : list Event) : nat :=
  match evs with
  | [] => 0
  | PlatformPull :: rest => count_settles rest
  | _ :: rest => settles_after_pull rest
  end.

Definition is_consumer_cancel (ev : Event) : bool :=
  match ev with ConsumerCancel => true | _ => false end.

(** A schedule in which the consumer never cancels. *)
Definition no_cancel (evs : list Event) : Prop :=
  forallb (fun ev => negb (is_consumer_cancel ev)) evs = true.

End Streams.

(* ===================================================================== *)
(** * The request and transformProps                                      *)
(* ===================================================================== *)

Module Props.
Import Js.
Local Open Scope js_scope.

(** The caller's request lives in a heap: objects and arrays are cells,
    held by reference, so that a write through one reference is seen
    through every other. *)
Definition loc : Type := nat.

Inductive Val : Type :=
| VUndefined
| VNull
| VBool (b : bool)
| VStr (s : string)
| VRef (l : loc).

(** The class an object was constructed with. *)
Inductive Class : Type :=
| PlainObject
| HumanMessage
| AIMessage
| SystemMessage.

Inductive Cell : Type :=
| CObject (cls : Class) (fields : list (string * Val))
| CArray (elems : list Val).

Definition Heap : Type := list Cell.

(** A reference outside the heap reads as an empty object; an execution
    of JavaScript holds no such reference. *)
Definition cell_at (h : Heap) (l : loc) : Cell :=
  match h !! l with
  | Some c => c
  | None => CObject PlainObject []
  end.

Definition alloc (c : Cell) : M Heap loc :=
  fun h => (Ok (length h), h ++ [c]).

Definition store (l : loc) (c : Cell) : M Heap unit :=
  modify (fun h => <[l := c]> h).

Definition field (k : string) (fs : list (string * Val)) : Val :=
  match assoc k fs with
  | Some v => v
  | None => VUndefined
  end.

(** [o[k] = v] on the fields of an object: in place when the key is
    there, else at the end. *)
Fixpoint set_field (k : string) (v : Val) (fs : list (string * Val))
  : list (string * Val) :=
  match fs with
  | [] => [(k, v)]
  | (k', v') :: rest =>
      if String.eqb k k' then (k, v) :: rest else (k', v') :: set_field k v rest
  end.

Definition indexed_from (start : nat) (elems : list Val) : list (string * Val) :=
  imap (fun i v => (pretty (start + i), v)) elems.

(** The own enumerable properties of a cell: the fields of an object,
    the indices of an array. *)
Definition own_fields (c : Cell) : list (string * Val) :=
  match c with
  | CObject _ fs => fs
  | CArray elems => indexed_from 0 elems
  end.

Definition nullish (v : Val) : bool :=
  match v with VUndefined | VNull => true | _ => false end.

Definition truthy (v : Val) : bool :=
  match v with
  | VUndefined | VNull => false
  | VBool b => b
  | VStr s => negb (String.eqb s "")
  | VRef _ => true
  end.

(** [v.k] read in a heap, for the keys the adapter reads ([messages],
    [role], [content]): a field of an object, [undefined] on arrays,
    strings and booleans, a [TypeError] on [undefined] and [null]. *)
Definition read_prop (h : Heap) (v : Val) (k : string) : result Val :=
  match v with
  | VUndefined | VNull =>
      Throw (TypeError ("Cannot read properties of undefined or null: " +:+ k))
  | VBool _ | VStr _ => Ok VUndefined
  | VRef l =>
      match cell_at h l with
      | CObject _ fs => Ok (field k fs)
      | CArray _ => Ok VUndefined
      end
  end.

Definition get_prop (v : Val) (k : string) : M Heap Val :=
  let* h := get in lift (read_prop h v k).

(** [o.k = v] on an object held by reference. *)
Definition set_prop (l : loc) (k : string) (v : Val) : M Heap unit :=
  let* h := get in
  match cell_at h l with
  | CObject cls fs => store l (CObject cls (set_field k v fs))
  | CArray _ => ret tt
  end.

(** [Array.isArray(v)] and the elements of an array. *)
Definition is_array (h : Heap) (v : Val) : bool :=
  match v with
  | VRef l => match cell_at h l with CArray _ => true | CObject _ _ => false end
  | _ => false
  end.

Definition elements (h : Heap) (v : Val) : list Val :=
  match v with
  | VRef l => match cell_at h l with CArray es => es | CObject _ _ => [] end
  | _ => []
  end.

(** [a.push(v)] *)
Definition push (a : loc) (v : Val) : M Heap unit :=
  let* h := get in
  match cell_at h a with
  | CArray es => store a (CArray (es ++ [v]))
  | CObject _ _ => ret tt
  end.

(** [v === s] for a string literal [s]. *)
Definition is_string (v : Val) (s : string) : bool :=
  match v with
  | VStr t => String.eqb t s
  | _ => false
  end.

(** [v.k = x] in strict code: the field of an object is written; on
    [undefined], on [null] and on a primitive value the assignment is a
    [TypeError].  An array of this heap holds its elements only, and a
    named property written to one is not kept. *)
Definition assign (v : Val) (k : string) (x : Val) : M Heap unit :=
  match v with
  | VRef l => set_prop l k x
  | _ => throw (TypeError ("Cannot create property " +:+ k))
  end.

(** [if (!fields.k) fields.k = {}], and what [fields.k] is afterwards. *)
Definition default_prop (fields : Val) (k : string) : M Heap Val :=
  let* v := get_prop fields k in
  if truthy v then ret v
  else
    let* o := alloc (CObject PlainObject []) in
    assign fields k (VRef o) ;;;
    ret (VRef o).

(** [new C(content)] for the three message classes.  They come from
    [@langchain/core], outside this repository, and share the
    constructor of its [BaseMessage]: a string becomes the content of a
    new fields object, and any other argument is taken for the fields
    object itself; the fields are given an empty [additional_kwargs]
    and an empty [response_metadata] where they have none, which throws
    a [TypeError] on [undefined] and [null] and writes to an object that
    the caller passed; the message keeps the fields and their content. *)
Definition new_message (cls : Class) (content : Val) : M Heap Val :=
  let* fields :=
    match content with
    | VStr _ =>
        let* response_metadata := alloc (CObject PlainObject []) in
        let* l := alloc (CObject PlainObject
                           [("content", content);
                            ("additional_kwargs", VUndefined);
                            ("response_metadata", VRef response_metadata)]) in
        ret (VRef l)
    | _ => ret content
    end in
  let* additional_kwargs := default_prop fields "additional_kwargs" in
  let* response_metadata := default_prop fields "response_metadata" in
  let* name := get_prop fields "name" in
  let* content := get_prop fields "content" in
  let* l := alloc (CObject cls [("lc_kwargs", fields);
                                ("name", name);
                                ("content", content);
                                ("additional_kwargs", additional_kwargs);
                                ("response_metadata", response_metadata)]) in
  ret (VRef l).

(** [for (const x of xs) body(x)]; the body does not write to [xs]. *)
Fixpoint for_of (xs : list Val) (body : Val -> M Heap unit) : M Heap unit :=
  match xs with
  | [] => ret tt
  | x :: rest => body x ;;; for_of rest body
  end.

(** The body of the loop over the messages. *)
Definition convert_message (newMessages : loc) (message : Val) : M Heap unit :=
  let* role := get_prop message "role" in
  if is_string role "user" then
    let* content := get_prop message "content" in
    let* m := new_message HumanMessage content in
    push newMessages m
  else if is_string role "assistant" then
    let* content := get_prop message "content" in
    let* m := new_message AIMessage content in
    push newMessages m
  else if is_string role "system" then
    let* content := get_prop message "content" in
    let* m := new_message SystemMessage content in
    push newMessages m
  else ret tt.

(** [transformProps(forwardedProps)], for a request held by reference. *)
Definition transformProps (forwardedProps : loc) : M Heap loc :=
  let* h := get in
  let* forwardedPropsCopy :=
    alloc (CObject PlainObject (own_fields (cell_at h forwardedProps))) in
  let* messages := get_prop (VRef forwardedProps) "messages" in
  let* h1 := get in
  (if truthy messages && is_array h1 messages then
     let* newMessages := alloc (CArray []) in
     for_of (elements h1 messages) (convert_message newMessages) ;;;
     set_prop forwardedPropsCopy "messages" (VRef newMessages)
   else ret tt) ;;;
  ret forwardedPropsCopy.

(** ** Reading a transformed request back *)

Definition message_at (h : Heap) (v : Val) : option (Class * Val) :=
  match v with
  | VRef l =>
      match h !! l with
      | Some (CObject cls fs) => Some (cls, field "content" fs)
      | _ => None
      end
  | _ => None
  end.

(** The messages of the request at [l]: class and content of each. *)
Definition messages_of (h : Heap) (l : loc) : option (list (Class * Val)) :=
  match h !! l with
  | Some (CObject _ fs) =>
      match field "messages" fs with
      | VRef a =>
          match h !! a with
          | Some (CArray es) => mapM (message_at h) es
          | _ => None
          end
      | _ => None
      end
  | _ => None
  end.

(** ** The mapping as the specification words it

    Each turn is mapped by its role: [user] to a user message,
    [assistant] to an assistant message, [system] to a system message;
    a turn with any other role is dropped. *)
Definition class_of_role (role : Val) : option Class :=
  if is_string role "user" then Some HumanMessage
  else if is_string role "assistant" then Some AIMessage
  else if is_string role "system" then Some SystemMessage
  else None.

Definition recognized_turns (turns : list (Val * Val)) : list (Class * Val) :=
  omap (fun turn => match class_of_role (fst turn) with
                    | Some cls => Some (cls, snd turn)
                    | None => None
                    end) turns.

(** A reference, above [nm], to a message object of class and content
    [y]. *)
Definition message_ref (h : Heap) (nm : loc) (v : Val) (y : Class * Val) : Prop :=
  exists l, v = VRef l /\ nm < l /\ message_at h v = Some y.

(** A turn of the request: a reference to an object with the fields
    [o]. *)
Definition turn_object (h : Heap) (v : Val) (o : list (string * Val)) : Prop :=
  exists l c, v = VRef l /\ h !! l = Some (CObject c o).

(** The cells that [new C(s)] adds, for a string [s], to a heap of [n]
    cells: the empty [response_metadata], the fields object, the empty
    [additional_kwargs] and the message. *)
Definition message_cells (cls : Class) (s : string) (n : nat) : list Cell :=
  [CObject PlainObject [];
   CObject PlainObject [("content", VStr s);
                        ("additional_kwargs", VRef (n + 2));
                        ("response_metadata", VRef n)];
   CObject PlainObject [];
   CObject cls [("lc_kwargs", VRef (n + 1));
                ("name", VUndefined);
                ("content", VStr s);
                ("additional_kwargs", VRef (n + 2));
                ("response_metadata", VRef n)]].

(** Role and content of a turn. *)
Definition role_and_content (o : list (string * Val)) : Val * Val :=
  (field "role" o, field "content" o).

(** A turn as the inbound contract has it, [{role, content: string}]:
    when its role is one of the three, its content is a string. *)
Definition text_turn (o : list (string * Val)) : Prop :=
  class_of_role (field "role" o) <> None -> exists s, field "content" o = VStr s.

(** An element of the list of turns whose content, if a message is made
    of it, is a string: an object that is such a turn, or a value that
    has no role. *)
Definition text_element (h : Heap) (message : Val) : Prop :=
  match message with
  | VRef l =>
      match h !! l with
      | Some (CObject _ o) => text_turn o
      | Some (CArray _) => True
      | None => False
      end
  | _ => True
  end.

(** ** The caller's heap

    A computation keeps the heap [h] when, run on any heap that starts
    with [h], it ends on a heap that starts with [h]: it only adds
    cells and writes to cells it added.  [Q] is what its result then
    satisfies. *)
Definition keeps (h : Heap) {A : Type} (m : M Heap A) (Q : A -> Prop) : Prop :=
  forall s : list Cell,
    h `prefix_of` s ->
    h `prefix_of` snd (m s) /\ (forall a, fst (m s) = Ok a -> Q a).

End Props.

(* ===================================================================== *)
(** * The adapter                                                         *)
(* ===================================================================== *)

Module Adapter.
Import Js Streams Props.
Local Open Scope js_scope.

(** What the LangChain function returned, as the [instanceof] and
    [typeof] tests of [stream] see it. *)
Inductive ChainResult : Type :=
| IterableReadableStream (streamedChain : Upstream)
| BaseMessageChunk (self : list (string * JsValue))
| Plain (v : JsValue).       (* a string, or anything else *)

Definition stream_of_result (r : ChainResult) : result World :=
  match r with
  | IterableReadableStream streamedChain => streamResult streamedChain
  | BaseMessageChunk self =>
      let lc_kwargs := Js.field "lc_kwargs" self in
      SingleChunkReadableStream (opt_prop lc_kwargs "content")
                                (opt_prop lc_kwargs "function_call")
  | Plain (JStr s) => SingleChunkReadableStream (JStr s) JUndefined
  | Plain _ => Throw (Error "Invalid return type from LangChain function.")
  end.

(** [stream(forwardedProps)]: the LangChain function is given the
    transformed request; what it throws, and what building the stream
    throws, is thrown to the caller. *)
Definition stream (chainFn : loc -> M Heap ChainResult) (forwardedProps : loc)
  : M Heap World :=
  let* forwardedProps := transformProps forwardedProps in
  let* result := chainFn forwardedProps in
  lift (stream_of_result result).

End Adapter.

(* ===================================================================== *)
(** * Runs of a stream                                                    *)
(* ===================================================================== *)

Module Runs.
Import Js Streams.

(** The sink can still take frames. *)
Definition open (w : World) : Prop := can_close_or_enqueue (ctrl w) = true.

(** A trace is quiet while the adapter has only enqueued content frames:
    no terminal frame, no close, no error, no cancel. *)
Definition calm (e : TraceEvent) : Prop :=
  match e with
  | Enqueued f => is_content_frame f
  | Delivered _ => True
  | _ => False
  end.

Definition quiet (t : list TraceEvent) : Prop := Forall calm t.

(** The trace of a stream that ended normally: the terminal frame was
    enqueued, then the controller was closed, then the cursor was
    cancelled, once. *)
Definition completed (t : list TraceEvent) : Prop :=
  cancel_calls_of t = 1 /\
  occurs_before (is_enqueue_of DONE_payload) is_close_called t /\
  occurs_before is_close_called is_cursor_cancel t.

(** An upstream that yields the fragments [vs] and then ends. *)
Definition normal_script (vs : list JsValue) (rest : list ReadOutcome)
  : list ReadOutcome :=
  List.map ReadValue vs ++ ReadDone :: rest.

(** Where a stream over such an upstream can be while the consumer does
    not cancel. *)
Definition normal_phase (vs : list JsValue) (rest : list ReadOutcome)
  (w : World) : Prop :=
  mode w = StreamPull /\
  match pull w with
  | NotStarted =>
      open w /\ quiet (trace w) /\
      reads w = normal_script vs rest /\ emitted w = []
  | AwaitingRead =>
      open w /\ quiet (trace w) /\
      exists k, k <= length vs /\
                reads w = drop k (normal_script vs rest) /\
                emitted w = List.map fragment_payload (take k vs)
  | Returned =>
      emitted w = List.map fragment_payload vs ++ [DONE_payload] /\
      completed (trace w)
  end.

(** An upstream that yields the fragments [vs] and whose next read
    fails with [e]. *)
Definition failing_script (vs : list JsValue) (e : Exn) (rest : list ReadOutcome)
  : list ReadOutcome :=
  List.map ReadValue vs ++ ReadRejects e :: rest.

(** What the consumer has seen of a stream that was errored with [e]
    after the frames [fs] were emitted: the first frames of [fs], as far
    as it was handed them, then the error, as often as it read. *)
Definition seen_before_failure (fs : list Frame) (e : Exn) (ds : list Delivery)
  : Prop :=
  exists seen n,
    seen `prefix_of` fs /\ ds = List.map Chunk seen ++ repeat (Failure e) n.

(** Where a stream over such an upstream can be while the consumer does
    not cancel. *)
Definition failing_phase (vs : list JsValue) (e : Exn) (rest : list ReadOutcome)
  (w : World) : Prop :=
  mode w = StreamPull /\
  match pull w with
  | NotStarted =>
      open w /\ quiet (trace w) /\
      reads w = failing_script vs e rest /\ emitted w = []
  | AwaitingRead =>
      open w /\ quiet (trace w) /\
      exists k, k <= length vs /\
                reads w = drop k (failing_script vs e rest) /\
                emitted w = List.map fragment_payload (take k vs)
  | Returned =>
      state (ctrl w) = Errored e /\
      emitted w = List.map fragment_payload vs /\
      cancel_calls w = 1 /\
      (forall f, In f (emitted w) ->
                 occurs_before (is_enqueue_of f) is_sink_errored (trace w)) /\
      occurs_before is_sink_errored is_cursor_cancel (trace w) /\
      seen_before_failure (emitted w) e (observed w)
  end.

(** Whatever the consumer does: the frames are content frames, and
    while [pull] has not returned the cursor has not been read past the
    failing read. *)
Definition before_failure (vs : list JsValue) (e : Exn) (rest : list ReadOutcome)
  (w : World) : Prop :=
  mode w = StreamPull /\
  Forall is_content_frame (emitted w) /\
  (pull w <> Returned ->
   exists k, k <= length vs /\ reads w = drop k (failing_script vs e rest)).

(** While the stream is readable, the consumer has been handed frames
    only. *)
Definition only_chunks (w : World) : Prop :=
  state (ctrl w) = Readable ->
  observed w = List.map Chunk (chunks_of (observed w)).

(** An answer of the cursor that the pull loop can take: a fragment or
    the end. *)
Definition healthy (r : ReadOutcome) : Prop := frame_of_read r <> None.

Definition is_failure (d : Delivery) : bool :=
  match d with Failure _ => true | _ => false end.

Definition is_errored (s : StreamState) : bool :=
  match s with Errored _ => true | _ => false end.

(** A stream over a cursor whose reads all succeed, that no failure has
    reached: the stream is not errored and no read of the consumer was
    rejected. *)
Definition unfailed (w : World) : Prop :=
  Forall healthy (reads w) /\
  is_errored (state (ctrl w)) = false /\
  forallb (fun d => negb (is_failure d)) (observed w) = true /\
  (mode w = StreamPull -> pull w = AwaitingRead ->
   closeRequested (ctrl w) = false).

(** The consumer is handed the frames in the order they were enqueued:
    what it has received and what is still queued make up what was
    emitted, and a read request waits only on an empty queue. *)
Definition fifo (w : World) : Prop :=
  exists pending,
    emitted w = chunks_of (observed w) ++ pending /\
    (state (ctrl w) = Readable ->
     pending = queue (ctrl w) /\
     (readRequests (ctrl w) = 0 \/ queue (ctrl w) = [])).

(** The frames emitted follow the answers of the upstream cursor, one
    answer after the other. *)
Definition in_order (script : list ReadOutcome) (w : World) : Prop :=
  exists j,
    reads w = drop j script /\
    (pull w <> Returned -> emitted w = omap frame_of_read (take j script)) /\
    exists k, emitted w = omap frame_of_read (take k script).

(** Content frames so far, and at most a terminal frame at the end. *)
Definition terminated_once (w : World) : Prop :=
  (pull w <> Returned -> Forall is_content_frame (emitted w)) /\
  well_terminated (emitted w).

(** A fragment whose [lc_kwargs] hold the text [s]. *)
Definition fragment_with_content (s : string) : JsValue :=
  JObj [("lc_kwargs", JObj [("content", JStr s)])].

(** After [pull] has returned from a normal end: either the stream is
    closed and the consumer has every frame, or the close is requested
    and the frames it has and the frames still queued are the frames
    emitted. *)
Definition settled (w : World) : Prop :=
  pull w = Returned ->
  (state (ctrl w) = Closed /\ emitted w = chunks_of (observed w)) \/
  (state (ctrl w) = Readable /\ closeRequested (ctrl w) = true /\
   queue (ctrl w) <> [] /\
   emitted w = chunks_of (observed w) ++ queue (ctrl w)).

(** While [pull] waits, the sink is open and the next answer of the
    cursor is a fragment or the end. *)
Definition next_read_good (w : World) : Prop :=
  pull w = AwaitingRead ->
  open w /\
  match reads w with
  | r :: _ => frame_of_read r <> None
  | [] => True
  end.

(** The record the wire carries for a piece of text that needs no
    escaping, spelled out byte for byte. *)
Definition text_record (s : string) : Frame :=
  encode (dq "data: {'choices':[{'delta':{'role':'assistant','content':'"
          +:+ s +:+ dq "'}}]}" +:+ nl +:+ nl).

End Runs.

(* ===================================================================== *)
(** * Properties of the output stream                                     *)
(* ===================================================================== *)

Import Js Streams Runs.

(** ** Traces *)

Lemma emitted_of_app t1 t2 :
  emitted_of (t1 ++ t2) = emitted_of t1 ++ emitted_of t2.
Proof.
  induction t1 as [|e t1 IH]; [reflexivity|].
  destruct e; cbn; rewrite ?IH; reflexivity.
Qed.

Lemma observed_of_app t1 t2 :
  observed_of (t1 ++ t2) = observed_of t1 ++ observed_of t2.
Proof.
  induction t1 as [|e t1 IH]; [reflexivity|].
  destruct e; cbn; rewrite ?IH; reflexivity.
Qed.

Lemma cancel_calls_of_app t1 t2 :
  cancel_calls_of (t1 ++ t2) = cancel_calls_of t1 + cancel_calls_of t2.
Proof.
  induction t1 as [|e t1 IH]; [reflexivity|].
  destruct e; cbn; rewrite ?IH; reflexivity.
Qed.

Lemma chunks_of_app d1 d2 : chunks_of (d1 ++ d2) = chunks_of d1 ++ chunks_of d2.
Proof.
  induction d1 as [|d d1 IH]; [reflexivity|].
  destruct d; cbn; rewrite ?IH; reflexivity.
Qed.

Lemma emitted_of_repeat d n : emitted_of (repeat (Delivered d) n) = [].
Proof. induction n; cbn; auto. Qed.

Lemma observed_of_repeat d n : observed_of (repeat (Delivered d) n) = repeat d n.
Proof. induction n; cbn; congruence. Qed.

Lemma cancel_calls_of_repeat d n : cancel_calls_of (repeat (Delivered d) n) = 0.
Proof. induction n; cbn; auto. Qed.

Lemma chunks_of_repeat_end n : chunks_of (repeat EndOfStream n) = [].
Proof. induction n; cbn; auto. Qed.

Lemma chunks_of_repeat_failure e n : chunks_of (repeat (Failure e) n) = [].
Proof. induction n; cbn; auto. Qed.

Lemma first_index_app p t1 t2 :
  first_index p (t1 ++ t2) =
  match first_index p t1 with
  | Some i => Some i
  | None =>
      match first_index p t2 with
      | Some j => Some (length t1 + j)
      | None => None
      end
  end.
Proof.
  induction t1 as [|e t1 IH]; cbn.
  - destruct (first_index p t2); reflexivity.
  - destruct (p e); [reflexivity|]. rewrite IH.
    destruct (first_index p t1); [reflexivity|].
    destruct (first_index p t2); reflexivity.
Qed.

Lemma first_index_repeat p e n :
  p e = false -> first_index p (repeat e n) = None.
Proof. intros H. induction n; cbn; rewrite ?H, ?IHn; reflexivity. Qed.

Lemma occurs_before_app p q t es :
  occurs_before p q t -> occurs_before p q (t ++ es).
Proof.
  intros (i & j & Hi & Hj & Hlt). exists i, j.
  rewrite !first_index_app, Hi, Hj. auto.
Qed.

Lemma frame_eqb_refl f : frame_eqb f f = true.
Proof.
  induction f as [|b f IH]; [reflexivity|].
  cbn. rewrite IH, Byte.byte_dec_lb; reflexivity.
Qed.

(** ** Frames *)

Lemma content_frame_not_DONE f : is_content_frame f -> f <> DONE_payload.
Proof.
  intros (c & fc & ->) H.
  apply (f_equal (fun l => nth 6 l Byte.x00)) in H.
  lazy in H. discriminate H.
Qed.

Lemma fragment_payload_content v : is_content_frame (fragment_payload v).
Proof. unfold fragment_payload. eexists _, _. reflexivity. Qed.

Lemma frame_of_fragment r f :
  is_fragment r = true -> frame_of_read r = Some f -> is_content_frame f.
Proof.
  destruct r as [v| |e]; cbn; try discriminate.
  destruct (nullish v); cbn; [discriminate|].
  intros _ [= <-]. apply fragment_payload_content.
Qed.



Ltac unfold_ops :=
  unfold step, handle, platform_pull, upstream_settles, consumer_read,
    consumer_cancel, source_cancel, pull_iteration, cleanup, single_start,
    controller_enqueue, controller_close, controller_error, reader_cancel,
    stream_close, set_ctrl, set_reads, set_cancels, set_pull, log,
    try_catch, bind, ret, throw, get, modify, lift, get_prop,
    can_close_or_enqueue in *.

Ltac split_var :=
  match goal with
  | |- context [match ?x with _ => _ end] => is_var x; destruct x
  | |- context [if ?x then _ else _] => is_var x; destruct x
  | |- context [nullish ?v] => is_var v; destruct (nullish v) eqn:?
  | |- context [negb ?x] => is_var x; destruct x
  | |- context [is_readable ?x] => is_var x; destruct x
  | |- context [match ?x ++ _ with _ => _ end] => is_var x; destruct x
  end.

(** Case analysis on everything a step looks at. *)
Ltac blast w :=
  destruct w as [m [s cr q rr] rs cs p t];
  unfold_ops; cbn;
  repeat (split_var; cbn).

Ltac tr :=
  repeat (rewrite ?emitted_of_app, ?emitted_of_repeat, ?observed_of_app,
            ?observed_of_repeat, ?cancel_calls_of_app, ?cancel_calls_of_repeat,
            ?chunks_of_app, ?chunks_of_repeat_end, ?chunks_of_repeat_failure,
            ?app_nil_r;
          cbn [emitted_of observed_of cancel_calls_of chunks_of app]).

Local Opaque payload_of DONE_payload ChatCompletionChunk.

Lemma step_mode w ev : mode (step w ev) = mode w.
Proof. destruct ev; blast w; reflexivity. Qed.

Lemma step_emitted w ev : emitted (step w ev) = emitted w ++ new_frames w ev.
Proof.
  unfold emitted, new_frames, frame_of_read, fragment_payload.
  destruct ev; blast w; tr; reflexivity.
Qed.

Lemma step_pull w ev : pull (step w ev) = next_pull w ev.
Proof. unfold next_pull, is_fragment. destruct ev; blast w; reflexivity. Qed.

Lemma step_reads w ev : reads (step w ev) = next_reads w ev.
Proof. unfold next_reads. destruct ev; blast w; reflexivity. Qed.

Lemma step_trace w ev : exists es, trace (step w ev) = trace w ++ es.
Proof.
  destruct ev; blast w; rewrite <- ?app_assoc;
    try (eexists; reflexivity); exists []; rewrite app_nil_r; reflexivity.
Qed.

Lemma run_app w evs1 evs2 : run w (evs1 ++ evs2) = run (run w evs1) evs2.
Proof. unfold run. apply fold_left_app. Qed.

Lemma run_cons w ev evs : run w (ev :: evs) = run (step w ev) evs.
Proof. reflexivity. Qed.

Lemma run_mode w evs : mode (run w evs) = mode w.
Proof.
  revert w. induction evs as [|ev evs IH]; intros w; [reflexivity|].
  rewrite run_cons, IH. apply step_mode.
Qed.

Lemma run_trace w evs : exists es, trace (run w evs) = trace w ++ es.
Proof.
  revert w. induction evs as [|ev evs IH]; intros w.
  - exists []. cbn. rewrite app_nil_r. reflexivity.
  - rewrite run_cons. destruct (IH (step w ev)) as [es2 H2].
    destruct (step_trace w ev) as [es1 H1].
    exists (es1 ++ es2). rewrite H2, H1, app_assoc. reflexivity.
Qed.

(** Once [pull] has returned it stays returned, and nothing is enqueued
    any more. *)
Lemma returned_stays w ev : pull w = Returned -> pull (step w ev) = Returned.
Proof.
  intros H. rewrite step_pull. unfold next_pull. rewrite H.
  destruct ev, (mode w); reflexivity.
Qed.

Lemma single_shot_silent w ev : mode w = SingleShot -> new_frames w ev = [].
Proof. intros H. unfold new_frames. rewrite H. destruct ev; reflexivity. Qed.


(** ** Invariants of every run *)

Lemma terminated_once_fresh m rs cs : terminated_once (fresh m rs cs).
Proof.
  split; [intros _; constructor|]. exists []. split; [constructor|left; reflexivity].
Qed.

Lemma terminated_once_step w ev :
  mode w = StreamPull -> terminated_once w -> terminated_once (step w ev).
Proof.
  intros Hm [Hc Hw]. unfold terminated_once.
  rewrite step_emitted, step_pull. unfold new_frames, next_pull.
  rewrite Hm.
  destruct ev; rewrite ?app_nil_r; try (split; assumption).
  - destruct (pull w); rewrite ?app_nil_r; try (split; assumption).
    destruct (can_close_or_enqueue (ctrl w)); split; auto.
  - destruct (pull w) eqn:Hp; rewrite ?app_nil_r; try (split; assumption).
    destruct (reads w) as [|r rs]; rewrite ?app_nil_r; [split; assumption|].
    destruct (can_close_or_enqueue (ctrl w)); cbn [andb];
      rewrite ?app_nil_r; [|split; [intros H; destruct (H eq_refl)|assumption]].
    assert (Hcs : Forall is_content_frame (emitted w)) by (apply Hc; discriminate).
    destruct (is_fragment r) eqn:Hr.
    + destruct (frame_of_read r) as [f|] eqn:Hf; rewrite ?app_nil_r;
        [|split; assumption].
      assert (Hall : Forall is_content_frame (emitted w ++ [f])).
      { apply Forall_app. split; [assumption|].
        constructor; [eapply frame_of_fragment; eassumption|constructor]. }
      split; [intros _; exact Hall|].
      exists (emitted w ++ [f]). split; [exact Hall|left; reflexivity].
    + split; [intros H; destruct (H eq_refl)|].
      destruct r as [v| |e]; cbn in Hr |- *.
      * destruct (nullish v); [|discriminate]. rewrite app_nil_r. assumption.
      * exists (emitted w). split; [assumption|right; reflexivity].
      * rewrite app_nil_r. assumption.
Qed.

Lemma terminated_once_run w evs :
  mode w = StreamPull -> terminated_once w -> terminated_once (run w evs).
Proof.
  revert w. induction evs as [|ev evs IH]; intros w Hm Hw; [exact Hw|].
  rewrite run_cons. apply IH; [rewrite step_mode; exact Hm|].
  apply terminated_once_step; assumption.
Qed.

Lemma single_shot_run_emitted w evs :
  mode w = SingleShot -> emitted (run w evs) = emitted w.
Proof.
  revert w. induction evs as [|ev evs IH]; intros w Hm; [reflexivity|].
  rewrite run_cons, IH by (rewrite step_mode; exact Hm).
  rewrite step_emitted, single_shot_silent by exact Hm. apply app_nil_r.
Qed.

Lemma in_order_fresh script cs : in_order script (fresh StreamPull script cs).
Proof.
  exists 0. cbn. split; [reflexivity|]. split; [reflexivity|].
  exists 0. reflexivity.
Qed.

Lemma drop_cons_take {A} (l : list A) j x rest :
  drop j l = x :: rest -> drop (S j) l = rest /\ take (S j) l = take j l ++ [x].
Proof.
  intros H.
  assert (Hx : l !! j = Some x).
  { rewrite <- (Nat.add_0_r j), <- lookup_drop, H. reflexivity. }
  split.
  - rewrite (drop_S l x j Hx) in H. congruence.
  - apply take_S_r. exact Hx.
Qed.

Lemma in_order_step script w ev :
  mode w = StreamPull -> in_order script w -> in_order script (step w ev).
Proof.
  intros Hm (j & Hr & He & k & Hk). unfold in_order.
  rewrite step_emitted, step_pull, step_reads.
  unfold new_frames, next_pull, next_reads. rewrite Hm.
  destruct ev; rewrite ?app_nil_r.
  - exists j. split; [exact Hr|]. split; [|exists k; exact Hk].
    destruct (pull w) eqn:Hp; try exact He.
    intros _. apply He. discriminate.
  - destruct (pull w) eqn:Hp; rewrite ?app_nil_r;
      try (exists j; split; [exact Hr|]; split; [exact He|exists k; exact Hk]).
    destruct (reads w) as [|r rs] eqn:Hrs; rewrite ?app_nil_r;
      [exists j; split; [exact Hr|]; split; [exact He|exists k; exact Hk]|].
    symmetry in Hr. destruct (drop_cons_take _ _ _ _ Hr) as [Hd Ht].
    specialize (He ltac:(discriminate)).
    exists (S j). split; [symmetry; exact Hd|].
    destruct (can_close_or_enqueue (ctrl w)); cbn [andb].
    + assert (Hnew : emitted w ++ match frame_of_read r with
                                  | Some f => [f] | None => [] end
                     = omap frame_of_read (take (S j) script)).
      { rewrite Ht, omap_app, He. cbn. destruct (frame_of_read r); reflexivity. }
      split; [intros _; exact Hnew|exists (S j); exact Hnew].
    + rewrite app_nil_r. split; [intros H; destruct (H eq_refl)|].
      exists j. exact He.
  - exists j. split; [exact Hr|]. split; [exact He|exists k; exact Hk].
  - exists j. split; [exact Hr|]. split; [exact He|exists k; exact Hk].
Qed.

Lemma in_order_run script w evs :
  mode w = StreamPull -> in_order script w -> in_order script (run w evs).
Proof.
  revert w. induction evs as [|ev evs IH]; intros w Hm Hw; [exact Hw|].
  rewrite run_cons. apply IH; [rewrite step_mode; exact Hm|].
  apply in_order_step; assumption.
Qed.

Lemma fifo_fresh m rs cs : fifo (fresh m rs cs).
Proof. exists []. split; [reflexivity|]. intros _. split; [reflexivity|left; reflexivity]. Qed.

(** Closes a case of [fifo_step]: the frames still pending are read off
    the new queue, or are what they were when the stream is no longer
    readable. *)
Ltac fifo_case :=
  intros (pending & He & Hq); cbn in He, Hq;
  try (destruct (Hq eq_refl) as [-> [?|?]]; clear Hq);
  try congruence; subst; cbn in *;
  unfold fifo, emitted, observed; cbn; tr;
  rewrite ?He, ?app_nil_r, <- ?app_assoc;
  (eexists; split;
   [rewrite <- ?app_assoc; first [reflexivity | symmetry; apply app_nil_r]
   |intros Hs; first [discriminate Hs | split; [reflexivity|auto]]]).

Lemma fifo_step w ev : fifo w -> fifo (step w ev).
Proof.
  unfold fifo at 1, emitted, observed.
  destruct ev; blast w; try (intros H; exact H); try (fifo_case; fail).
Qed.

Lemma fifo_run w evs : fifo w -> fifo (run w evs).
Proof.
  revert w. induction evs as [|ev evs IH]; intros w Hw; [exact Hw|].
  rewrite run_cons. apply IH, fifo_step, Hw.
Qed.

Lemma fifo_prefix w : fifo w -> chunks_of (observed w) `prefix_of` emitted w.
Proof. intros (pending & He & _). exists pending. exact He. Qed.


(** ** Runs without cancellation *)

Lemma quiet_app t es : quiet t -> quiet es -> quiet (t ++ es).
Proof. intros H1 H2. apply Forall_app. split; assumption. Qed.

Lemma quiet_no_cancel t : quiet t -> cancel_calls_of t = 0.
Proof.
  induction 1 as [|e t He _ IH]; [reflexivity|].
  destruct e; cbn in *; try contradiction; exact IH.
Qed.

Lemma frame_eqb_eq f g : frame_eqb f g = true -> f = g.
Proof.
  revert g. induction f as [|b f IH]; intros [|c g]; cbn; try discriminate; auto.
  intros H. apply andb_prop in H as [Hb Hf].
  apply Byte.byte_dec_bl in Hb. f_equal; auto.
Qed.

Lemma quiet_first_index p t :
  (forall e, calm e -> p e = false) -> quiet t -> first_index p t = None.
Proof.
  intros Hp. induction 1 as [|e t He _ IH]; [reflexivity|].
  cbn. rewrite (Hp e He), IH. reflexivity.
Qed.

Lemma calm_not_DONE e : calm e -> is_enqueue_of DONE_payload e = false.
Proof.
  destruct e; cbn; try reflexivity. intros Hc.
  destruct (frame_eqb DONE_payload f) eqn:Heq; [|reflexivity].
  apply frame_eqb_eq in Heq. symmetry in Heq.
  destruct (content_frame_not_DONE f Hc Heq).
Qed.

Lemma calm_not_close e : calm e -> is_close_called e = false.
Proof. destruct e; cbn; try reflexivity; contradiction. Qed.

Lemma calm_not_cancel e : calm e -> is_cursor_cancel e = false.
Proof. destruct e; cbn; try reflexivity; contradiction. Qed.

Lemma calm_not_errored e : calm e -> is_sink_errored e = false.
Proof. destruct e; cbn; try reflexivity; contradiction. Qed.

Lemma calm_payload c fc : calm (Enqueued (payload_of (ChatCompletionChunk c fc))).
Proof. cbn. eexists _, _. reflexivity. Qed.

Lemma quiet_repeat d n : quiet (repeat (Delivered d) n).
Proof. induction n; constructor; cbn; auto. Qed.

Ltac quiet_tail :=
  unfold quiet;
  repeat first
    [ apply (quiet_repeat _ _)
    | apply List.Forall_nil
    | apply List.Forall_cons; [first [exact I | apply calm_payload]|] ].

(** While the consumer does not cancel and [pull] has not returned, the
    sink stays open and the trace stays quiet. *)
Lemma step_calm w ev :
  is_consumer_cancel ev = false ->
  open w -> quiet (trace w) ->
  pull (step w ev) <> Returned ->
  open (step w ev) /\ quiet (trace (step w ev)).
Proof.
  unfold open.
  destruct ev; try discriminate; intros _; blast w;
    intros Ho Hq Hp; try discriminate Ho; try (destruct (Hp eq_refl));
    (split; [reflexivity|]);
    rewrite <- ?app_assoc; try exact Hq;
    apply quiet_app; try exact Hq; quiet_tail.
Qed.

Lemma first_index_repeat_app p e n l :
  p e = false ->
  first_index p (repeat e n ++ l) =
  match first_index p l with
  | Some j => Some (n + j)
  | None => None
  end.
Proof.
  intros H. induction n as [|n IH]; cbn.
  - destruct (first_index p l); reflexivity.
  - rewrite H, IH. destruct (first_index p l); reflexivity.
Qed.

Lemma occurs_before_tail p q t es i j :
  first_index p t = None -> first_index q t = None ->
  first_index p es = Some i -> first_index q es = Some j -> i < j ->
  occurs_before p q (t ++ es).
Proof.
  intros Hp Hq Hi Hj Hlt. exists (length t + i), (length t + j).
  rewrite !first_index_app, Hp, Hq, Hi, Hj. repeat split; lia.
Qed.

Lemma completed_after_quiet t es a b c :
  quiet t ->
  cancel_calls_of es = 1 ->
  first_index (is_enqueue_of DONE_payload) es = Some a ->
  first_index is_close_called es = Some b ->
  first_index is_cursor_cancel es = Some c ->
  a < b -> b < c ->
  completed (t ++ es).
Proof.
  intros Hq Hn Ha Hb Hc Hab Hbc. unfold completed.
  rewrite cancel_calls_of_app, (quiet_no_cancel t Hq), Hn.
  split; [reflexivity|]. split.
  - eapply occurs_before_tail; eauto using quiet_first_index, calm_not_DONE, calm_not_close.
  - eapply occurs_before_tail; eauto using quiet_first_index, calm_not_close, calm_not_cancel.
Qed.

Lemma completed_app t es :
  completed t -> cancel_calls_of es = 0 -> completed (t ++ es).
Proof.
  intros (Hn & H1 & H2) He. unfold completed.
  rewrite cancel_calls_of_app, Hn, He.
  repeat split; auto using occurs_before_app.
Qed.

(** Solves an equation [first_index p es = Some ?i] on a spelled-out
    tail of a trace. *)
Ltac index_of :=
  cbn [first_index is_enqueue_of is_close_called is_cursor_cancel
       is_sink_errored app];
  rewrite ?frame_eqb_refl;
  rewrite ?first_index_repeat_app by reflexivity;
  cbn [first_index is_enqueue_of is_close_called is_cursor_cancel
       is_sink_errored app];
  reflexivity.

Ltac blast_in w :=
  destruct w as [m [s cr q rr] rs cs p t];
  unfold open, can_close_or_enqueue in *; cbn in * |-; subst;
  unfold_ops; cbn;
  repeat (split_var; cbn).

(** The turn of the loop that meets the end of the upstream. *)
Lemma step_done w rest :
  mode w = StreamPull -> pull w = AwaitingRead -> open w ->
  reads w = ReadDone :: rest -> quiet (trace w) ->
  completed (trace (step w UpstreamSettles)).
Proof.
  intros Hm Hp Ho Hr Hq. blast_in w; try discriminate Ho;
    rewrite <- ?app_assoc; cbn [app].
  all: eapply completed_after_quiet;
    [exact Hq
    |cbn [cancel_calls_of];
     rewrite ?cancel_calls_of_app, ?cancel_calls_of_repeat; reflexivity
    |index_of|index_of|index_of|lia|lia].
Qed.

(** After [pull] has returned, a consumer that does not cancel causes
    no further call on the cursor. *)
Lemma step_after_return w ev :
  is_consumer_cancel ev = false -> pull w = Returned ->
  exists es, trace (step w ev) = trace w ++ es /\ cancel_calls_of es = 0.
Proof.
  intros Hc Hp. destruct ev; try discriminate Hc; blast_in w;
    first
      [ exists []; split; [symmetry; apply app_nil_r|reflexivity]
      | rewrite <- ?app_assoc; eexists; split; [reflexivity|];
        cbn [cancel_calls_of app];
        rewrite ?cancel_calls_of_app, ?cancel_calls_of_repeat; reflexivity ].
Qed.

Lemma map_fmap {A B} (f : A -> B) (l : list A) : List.map f l = f <$> l.
Proof. induction l; cbn; congruence. Qed.

(** The next answer of an upstream that yields [vs] and then ends, when
    [k] answers have been taken. *)
Lemma normal_script_next vs rest k :
  k <= length vs ->
  match vs !! k with
  | Some v =>
      drop k (normal_script vs rest) = ReadValue v :: drop (S k) (normal_script vs rest) /\
      take (S k) vs = take k vs ++ [v] /\ S k <= length vs
  | None =>
      drop k (normal_script vs rest) = ReadDone :: rest /\ take k vs = vs
  end.
Proof.
  intros Hk. unfold normal_script. rewrite map_fmap.
  destruct (vs !! k) as [v|] eqn:Hv.
  - split; [|split].
    + apply drop_S. rewrite lookup_app_l.
      * rewrite list_lookup_fmap, Hv. reflexivity.
      * rewrite length_fmap. eapply lookup_lt_Some, Hv.
    + apply take_S_r, Hv.
    + apply lookup_lt_Some in Hv. lia.
  - apply lookup_ge_None in Hv. assert (k = length vs) as -> by lia.
    split; [|apply take_ge; lia].
    rewrite <- (length_fmap ReadValue vs) at 1. apply drop_app_length.
Qed.

Lemma normal_phase_fresh vs rest cs :
  normal_phase vs rest (fresh StreamPull (normal_script vs rest) cs).
Proof.
  split; [reflexivity|]. cbn. repeat split; constructor.
Qed.

Lemma normal_phase_step vs rest w ev :
  Forall (fun v => nullish v = false) vs ->
  is_consumer_cancel ev = false ->
  normal_phase vs rest w -> normal_phase vs rest (step w ev).
Proof.
  intros Hvs Hc [Hm Hph]. split; [rewrite step_mode; exact Hm|].
  pose proof (step_calm w ev Hc) as Hcalm.
  pose proof (step_after_return w ev Hc) as Hafter.
  rewrite step_emitted, step_reads, step_pull in *.
  unfold new_frames, next_reads, next_pull in *. rewrite Hm in *.
  destruct (pull w) eqn:Hp.
  - destruct Hph as (Ho & Hq & Hr & He).
    destruct (Hcalm Ho Hq) as [Ho' Hq'];
      [destruct ev, (can_close_or_enqueue (ctrl w)); discriminate|].
    unfold open in Ho. rewrite Ho.
    destruct ev; try discriminate Hc; rewrite ?app_nil_r; auto.
    split; [exact Ho'|]. split; [exact Hq'|].
    exists 0. split; [lia|]. split; [exact Hr|exact He].
  - destruct Hph as (Ho & Hq & k & Hk & Hr & He).
    destruct ev; try discriminate Hc.
    + destruct (Hcalm Ho Hq ltac:(discriminate)) as [Ho' Hq'].
      rewrite app_nil_r. eauto 10.
    + pose proof (normal_script_next vs rest k Hk) as Hnext.
      unfold open in Ho. rewrite Ho in *.
      destruct (vs !! k) as [v|] eqn:Hv.
      * destruct Hnext as (Hd & Ht & HSk).
        rewrite Hr, Hd in *. cbn [is_fragment frame_of_read andb] in *.
        assert (Hn : nullish v = false).
        { exact (Forall_lookup_1 _ _ _ _ Hvs Hv). }
        rewrite Hn in *. cbn [negb] in *.
        destruct (Hcalm Ho Hq ltac:(discriminate)) as [Ho' Hq'].
        split; [exact Ho'|]. split; [exact Hq'|].
        exists (S k). split; [exact HSk|]. split; [reflexivity|].
        rewrite He, Ht, map_app. reflexivity.
      * destruct Hnext as (Hd & Ht).
        rewrite Hr, Hd in *. cbn [is_fragment frame_of_read andb] in *.
        rewrite He, Ht. split; [reflexivity|].
        exact (step_done w rest Hm Hp Ho Hr Hq).
    + destruct (Hcalm Ho Hq ltac:(discriminate)) as [Ho' Hq'].
      rewrite app_nil_r. eauto 10.
  - destruct Hph as (He & Hdone).
    destruct (Hafter eq_refl) as (es & Ht & Hn).
    rewrite Ht. clear Hcalm Hafter Ht.
    destruct ev; rewrite app_nil_r;
      (split; [exact He|apply completed_app; assumption]).
Qed.

Lemma no_cancel_cons ev evs :
  no_cancel (ev :: evs) -> is_consumer_cancel ev = false /\ no_cancel evs.
Proof.
  unfold no_cancel. cbn. intros H. apply andb_prop in H as [H1 H2].
  split; [|exact H2]. destruct (is_consumer_cancel ev); [discriminate|reflexivity].
Qed.

Lemma normal_phase_run vs rest w evs :
  Forall (fun v => nullish v = false) vs -> no_cancel evs ->
  normal_phase vs rest w -> normal_phase vs rest (run w evs).
Proof.
  intros Hvs. revert w. induction evs as [|ev evs IH]; intros w Hn Hw; [exact Hw|].
  apply no_cancel_cons in Hn as [Hc Hn]. rewrite run_cons.
  apply IH; [exact Hn|]. apply normal_phase_step; assumption.
Qed.

Lemma run_returned w evs : pull w = Returned -> pull (run w evs) = Returned.
Proof.
  revert w. induction evs as [|ev evs IH]; intros w Hp; [exact Hp|].
  rewrite run_cons. apply IH, returned_stays, Hp.
Qed.

(** With enough answers taken from the cursor, [pull] returns. *)
Lemma normal_returns_awaiting vs rest w evs :
  Forall (fun v => nullish v = false) vs -> no_cancel evs ->
  normal_phase vs rest w -> pull w = AwaitingRead ->
  length (reads w) <= count_settles evs + length rest ->
  pull (run w evs) = Returned.
Proof.
  intros Hvs. revert w.
  induction evs as [|ev evs IH]; intros w Hn Hw Hp Hlen.
  - exfalso. destruct Hw as [_ Hw]. rewrite Hp in Hw.
    destruct Hw as (_ & _ & k & Hk & Hr & _).
    rewrite Hr, length_drop in Hlen. unfold normal_script in Hlen.
    rewrite length_app, length_map in Hlen. cbn in Hlen. lia.
  - apply no_cancel_cons in Hn as [Hc Hn]. rewrite run_cons.
    pose proof (normal_phase_step vs rest w ev Hvs Hc Hw) as Hw'.
    destruct (pull (step w ev)) eqn:Hp'.
    + exfalso. rewrite step_pull in Hp'. unfold next_pull in Hp'.
      rewrite Hp in Hp'.
      destruct ev, (mode w), (reads w); try discriminate;
        destruct (can_close_or_enqueue (ctrl w) && is_fragment r); discriminate.
    + apply IH; try assumption.
      rewrite step_reads. unfold next_reads. rewrite Hp.
      destruct Hw as [Hm _]. rewrite Hm.
      destruct ev; cbn [count_settles] in *; try lia.
      destruct (reads w); cbn [length] in *; lia.
    + apply run_returned, Hp'.
Qed.

Lemma normal_returns vs rest w evs :
  Forall (fun v => nullish v = false) vs -> no_cancel evs ->
  normal_phase vs rest w -> pull w = NotStarted ->
  length vs + 1 <= settles_after_pull evs ->
  pull (run w evs) = Returned.
Proof.
  intros Hvs. revert w.
  induction evs as [|ev evs IH]; intros w Hn Hw Hp Hlen.
  - cbn in Hlen. lia.
  - apply no_cancel_cons in Hn as [Hc Hn]. rewrite run_cons.
    pose proof (normal_phase_step vs rest w ev Hvs Hc Hw) as Hw'.
    assert (Hopen : can_close_or_enqueue (ctrl w) = true /\
                    reads w = normal_script vs rest /\ mode w = StreamPull).
    { destruct Hw as [Hm Hw]. rewrite Hp in Hw. destruct Hw as (Ho & _ & Hr & _).
      auto. }
    destruct Hopen as (Ho & Hr & Hm).
    assert (Hp' : pull (step w ev) =
                  match ev with PlatformPull => AwaitingRead | _ => NotStarted end).
    { rewrite step_pull. unfold next_pull. rewrite Hp, Hm, Ho.
      destruct ev; reflexivity. }
    assert (Hr' : reads (step w ev) = reads w).
    { rewrite step_reads. unfold next_reads. rewrite Hp, Hm.
      destruct ev; reflexivity. }
    destruct ev; try discriminate Hc; cbn [settles_after_pull] in Hlen.
    + eapply normal_returns_awaiting; eauto.
      rewrite Hr', Hr. unfold normal_script.
      rewrite length_app, length_map. cbn. lia.
    + apply IH; assumption.
    + apply IH; assumption.
Qed.

(** A stream over an upstream that yields [vs] and ends, read to the
    end by a consumer that does not cancel. *)
Lemma normal_completion vs rest cs evs :
  Forall (fun v => nullish v = false) vs -> no_cancel evs ->
  length vs + 1 <= settles_after_pull evs ->
  let w := run (fresh StreamPull (normal_script vs rest) cs) evs in
  pull w = Returned /\
  emitted w = List.map fragment_payload vs ++ [DONE_payload] /\
  completed (trace w).
Proof.
  intros Hvs Hn Hlen w.
  pose proof (normal_phase_fresh vs rest cs) as H0.
  assert (Hp : pull w = Returned).
  { apply (normal_returns vs rest); auto. }
  pose proof (normal_phase_run vs rest _ evs Hvs Hn H0) as [_ Hw].
  fold w in Hw. rewrite Hp in Hw. split; [exact Hp|exact Hw].
Qed.

(** ** An upstream that fails after some fragments *)

Lemma emitted_first_index f t :
  In f (emitted_of t) ->
  exists i, first_index (is_enqueue_of f) t = Some i.
Proof.
  induction t as [|e t IH]; cbn; [contradiction|].
  destruct e; cbn; auto;
    try (intros H; destruct (IH H) as [i Hi]; rewrite Hi; eauto; fail).
  intros [->|H].
  - rewrite frame_eqb_refl. eauto.
  - destruct (frame_eqb f f0); [eauto|].
    destruct (IH H) as [i Hi]. rewrite Hi. eauto.
Qed.

Lemma first_index_lt p t i : first_index p t = Some i -> i < length t.
Proof.
  revert i. induction t as [|e t IH]; cbn; [discriminate|].
  destruct (p e); [intros i [= <-]; lia|].
  destruct (first_index p t); [|discriminate].
  intros i [= <-]. specialize (IH _ eq_refl). lia.
Qed.

Lemma occurs_before_split p q t es i j :
  first_index p t = Some i -> first_index q t = None ->
  first_index q es = Some j ->
  occurs_before p q (t ++ es).
Proof.
  intros Hp Hq Hj. exists i, (length t + j).
  rewrite !first_index_app, Hp, Hq, Hj.
  apply first_index_lt in Hp. repeat split; lia.
Qed.

Lemma seen_before_failure_more fs e ds n :
  seen_before_failure fs e ds ->
  seen_before_failure fs e (ds ++ repeat (Failure e) n).
Proof.
  intros (seen & k & Hpre & ->). exists seen, (k + n).
  split; [exact Hpre|]. rewrite repeat_app, app_assoc. reflexivity.
Qed.

(** What a step does to a stream that has errored and whose [pull] has
    returned. *)
Lemma step_errored w ev e :
  is_consumer_cancel ev = false -> pull w = Returned ->
  state (ctrl w) = Errored e ->
  state (ctrl (step w ev)) = Errored e /\
  exists n, observed (step w ev) = observed w ++ repeat (Failure e) n.
Proof.
  intros Hc Hp Hs. unfold observed.
  destruct ev; try discriminate Hc; blast_in w;
    (split; [reflexivity|]); tr;
    first [ exists 0; rewrite app_nil_r; reflexivity
          | exists 1; reflexivity ].
Qed.

(** The next answer of an upstream that yields [vs] and then fails,
    when [k] answers have been taken. *)
Lemma failing_script_next vs e rest k :
  k <= length vs ->
  match vs !! k with
  | Some v =>
      drop k (failing_script vs e rest) =
        ReadValue v :: drop (S k) (failing_script vs e rest) /\
      take (S k) vs = take k vs ++ [v] /\ S k <= length vs
  | None =>
      drop k (failing_script vs e rest) = ReadRejects e :: rest /\ take k vs = vs
  end.
Proof.
  intros Hk. unfold failing_script. rewrite map_fmap.
  destruct (vs !! k) as [v|] eqn:Hv.
  - split; [|split].
    + apply drop_S. rewrite lookup_app_l.
      * rewrite list_lookup_fmap, Hv. reflexivity.
      * rewrite length_fmap. eapply lookup_lt_Some, Hv.
    + apply take_S_r, Hv.
    + apply lookup_lt_Some in Hv. lia.
  - apply lookup_ge_None in Hv. assert (k = length vs) as -> by lia.
    split; [|apply take_ge; lia].
    rewrite <- (length_fmap ReadValue vs) at 1. apply drop_app_length.
Qed.

Lemma only_chunks_fresh m rs cs : only_chunks (fresh m rs cs).
Proof. intros _. reflexivity. Qed.

Lemma only_chunks_step w ev : only_chunks w -> only_chunks (step w ev).
Proof.
  unfold only_chunks, observed.
  destruct ev; blast w; intros H Hs; try discriminate Hs;
    first [specialize (H eq_refl) | specialize (H Hs)];
    tr; rewrite ?map_app; cbn [List.map];
    try exact H; f_equal; exact H.
Qed.

Lemma only_chunks_run w evs : only_chunks w -> only_chunks (run w evs).
Proof.
  revert w. induction evs as [|ev evs IH]; intros w Hw; [exact Hw|].
  rewrite run_cons. apply IH, only_chunks_step, Hw.
Qed.

(** The turn of the loop in which the read fails: the stream is
    errored, every pending read of the consumer is rejected, closing
    the controller is refused, and the cursor is cancelled. *)
Lemma step_failure w e rest :
  mode w = StreamPull -> pull w = AwaitingRead -> open w ->
  reads w = ReadRejects e :: rest ->
  state (ctrl (step w UpstreamSettles)) = Errored e /\
  trace (step w UpstreamSettles) =
    trace w ++ SinkErrored e
            :: repeat (Delivered (Failure e)) (readRequests (ctrl w))
            ++ [CloseRefused; CursorCancelCalled].
Proof.
  intros Hm Hp Ho Hr. blast_in w; try discriminate Ho;
    (split; [reflexivity|]); rewrite <- ?app_assoc; reflexivity.
Qed.

Lemma failing_phase_fresh vs e rest cs :
  failing_phase vs e rest (fresh StreamPull (failing_script vs e rest) cs).
Proof. split; [reflexivity|]. cbn. repeat split; constructor. Qed.

Lemma failing_phase_step vs e rest w ev :
  Forall (fun v => nullish v = false) vs ->
  is_consumer_cancel ev = false ->
  fifo w -> only_chunks w ->
  failing_phase vs e rest w -> failing_phase vs e rest (step w ev).
Proof.
  intros Hvs Hc Hfifo Hoc [Hm Hph]. split; [rewrite step_mode; exact Hm|].
  pose proof (step_calm w ev Hc) as Hcalm.
  pose proof (step_after_return w ev Hc) as Hafter.
  rewrite step_emitted, step_reads, step_pull in *.
  unfold new_frames, next_reads, next_pull in *. rewrite Hm in *.
  destruct (pull w) eqn:Hp.
  - destruct Hph as (Ho & Hq & Hr & He).
    destruct (Hcalm Ho Hq) as [Ho' Hq'];
      [destruct ev, (can_close_or_enqueue (ctrl w)); discriminate|].
    unfold open in Ho. rewrite Ho.
    destruct ev; try discriminate Hc; rewrite ?app_nil_r; auto.
    split; [exact Ho'|]. split; [exact Hq'|].
    exists 0. split; [lia|]. split; [exact Hr|exact He].
  - destruct Hph as (Ho & Hq & k & Hk & Hr & He).
    destruct ev; try discriminate Hc.
    + destruct (Hcalm Ho Hq ltac:(discriminate)) as [Ho' Hq'].
      rewrite app_nil_r. eauto 10.
    + pose proof (failing_script_next vs e rest k Hk) as Hnext.
      pose proof Ho as Hopen.
      unfold open in Ho. rewrite Ho in *.
      destruct (vs !! k) as [v|] eqn:Hv.
      * destruct Hnext as (Hd & Ht & HSk).
        rewrite Hr, Hd in *. cbn [is_fragment frame_of_read andb] in *.
        assert (Hn : nullish v = false).
        { exact (Forall_lookup_1 _ _ _ _ Hvs Hv). }
        rewrite Hn in *. cbn [negb] in *.
        destruct (Hcalm Hopen Hq ltac:(discriminate)) as [Ho' Hq'].
        split; [exact Ho'|]. split; [exact Hq'|].
        exists (S k). split; [exact HSk|]. split; [reflexivity|].
        rewrite He, Ht, map_app. reflexivity.
      * destruct Hnext as (Hd & Ht).
        rewrite Hd in Hr. rewrite Hr. cbn [is_fragment frame_of_read andb].
        rewrite app_nil_r, He, Ht.
        destruct (step_failure w e rest Hm Hp Hopen Hr) as (Hs' & Htr).
        unfold cancel_calls, observed. rewrite Htr.
        split; [exact Hs'|]. split; [reflexivity|].
        assert (Hem : emitted_of (trace w) = List.map fragment_payload vs)
          by (unfold emitted in He; rewrite He, Ht; reflexivity).
        split; [|split; [|split]].
        -- rewrite cancel_calls_of_app, (quiet_no_cancel _ Hq).
           cbn [cancel_calls_of]. rewrite cancel_calls_of_app, cancel_calls_of_repeat.
           reflexivity.
        -- intros f Hf. rewrite <- Hem in Hf.
           destruct (emitted_first_index f (trace w) Hf) as [i Hi].
           eapply (occurs_before_split _ _ _ _ i);
             [exact Hi
             |exact (quiet_first_index _ _ calm_not_errored Hq)
             |reflexivity].
        -- eapply occurs_before_tail;
             [exact (quiet_first_index _ _ calm_not_errored Hq)
             |exact (quiet_first_index _ _ calm_not_cancel Hq)
             |index_of|index_of|lia].
        -- exists (chunks_of (observed w)), (readRequests (ctrl w)).
           destruct Hfifo as (pending & Hemit & _).
           split.
           ++ unfold emitted in Hemit. rewrite <- Hem, Hemit.
              apply prefix_app_r. reflexivity.
           ++ rewrite observed_of_app. cbn [observed_of].
              rewrite observed_of_app, observed_of_repeat. cbn [observed_of].
              rewrite app_nil_r. f_equal. apply Hoc.
              unfold open, can_close_or_enqueue in Hopen.
              apply andb_prop in Hopen as [_ Hrd].
              destruct (state (ctrl w)); [reflexivity|discriminate Hrd..].
    + destruct (Hcalm Ho Hq ltac:(discriminate)) as [Ho' Hq'].
      rewrite app_nil_r. eauto 10.
  - destruct Hph as (Hs & He & Hn & Hb1 & Hb2 & Hseen).
    destruct (Hafter eq_refl) as (es & Ht & Hes).
    destruct (step_errored w ev e Hc Hp Hs) as (Hs' & n & Hobs).
    clear Hcalm Hafter.
    replace (match ev with
             | PlatformPull => Returned
             | _ => Returned
             end) with Returned by (destruct ev; reflexivity).
    replace (emitted w ++ match ev with
                          | UpstreamSettles => []
                          | _ => []
                          end) with (emitted w)
      by (destruct ev; rewrite app_nil_r; reflexivity).
    split; [exact Hs'|]. split; [exact He|].
    unfold cancel_calls. rewrite Ht, cancel_calls_of_app, Hes, Hobs.
    split; [unfold cancel_calls in Hn; lia|].
    split; [intros f Hf; apply occurs_before_app, Hb1, Hf|].
    split; [apply occurs_before_app, Hb2|].
    apply seen_before_failure_more, Hseen.
Qed.

(** The three invariants of a run over a failing upstream. *)
Lemma failing_run vs e rest w evs :
  Forall (fun v => nullish v = false) vs -> no_cancel evs ->
  failing_phase vs e rest w /\ fifo w /\ only_chunks w ->
  failing_phase vs e rest (run w evs) /\ fifo (run w evs) /\
  only_chunks (run w evs).
Proof.
  intros Hvs. revert w.
  induction evs as [|ev evs IH]; intros w Hn (Hph & Hf & Ho); [auto|].
  apply no_cancel_cons in Hn as [Hc Hn]. rewrite run_cons.
  apply IH; [exact Hn|].
  auto using failing_phase_step, fifo_step, only_chunks_step.
Qed.

(** With the failing read settled, [pull] has returned. *)
Lemma failing_returns_awaiting vs e rest w evs :
  Forall (fun v => nullish v = false) vs -> no_cancel evs ->
  failing_phase vs e rest w /\ fifo w /\ only_chunks w ->
  pull w = AwaitingRead ->
  length (reads w) <= count_settles evs + length rest ->
  pull (run w evs) = Returned.
Proof.
  intros Hvs. revert w.
  induction evs as [|ev evs IH]; intros w Hn Hw Hp Hlen.
  - exfalso. destruct Hw as [[_ Hw] _]. rewrite Hp in Hw.
    destruct Hw as (_ & _ & k & Hk & Hr & _).
    rewrite Hr, length_drop in Hlen. unfold failing_script in Hlen.
    rewrite length_app, length_map in Hlen. cbn in Hlen. lia.
  - apply no_cancel_cons in Hn as [Hc Hn]. rewrite run_cons.
    pose proof (failing_run vs e rest w [ev] Hvs) as Hw'.
    cbn [run fold_left] in Hw'.
    specialize (Hw' ltac:(unfold no_cancel; cbn; rewrite Hc; reflexivity) Hw).
    destruct (pull (step w ev)) eqn:Hp'.
    + exfalso. rewrite step_pull in Hp'. unfold next_pull in Hp'.
      rewrite Hp in Hp'.
      destruct ev, (mode w), (reads w); try discriminate;
        destruct (can_close_or_enqueue (ctrl w) && is_fragment r); discriminate.
    + apply IH; try assumption.
      rewrite step_reads. unfold next_reads. rewrite Hp.
      destruct Hw as [[Hm _] _]. rewrite Hm.
      destruct ev; cbn [count_settles] in *; try lia.
      destruct (reads w); cbn [length] in *; lia.
    + apply run_returned, Hp'.
Qed.

Lemma failing_returns vs e rest w evs :
  Forall (fun v => nullish v = false) vs -> no_cancel evs ->
  failing_phase vs e rest w /\ fifo w /\ only_chunks w ->
  pull w = NotStarted ->
  length vs + 1 <= settles_after_pull evs ->
  pull (run w evs) = Returned.
Proof.
  intros Hvs. revert w.
  induction evs as [|ev evs IH]; intros w Hn Hw Hp Hlen.
  - cbn in Hlen. lia.
  - apply no_cancel_cons in Hn as [Hc Hn]. rewrite run_cons.
    pose proof (failing_run vs e rest w [ev] Hvs) as Hw'.
    cbn [run fold_left] in Hw'.
    specialize (Hw' ltac:(unfold no_cancel; cbn; rewrite Hc; reflexivity) Hw).
    assert (Hopen : can_close_or_enqueue (ctrl w) = true /\
                    reads w = failing_script vs e rest /\ mode w = StreamPull).
    { destruct Hw as [[Hm Hw] _]. rewrite Hp in Hw.
      destruct Hw as (Ho & _ & Hr & _). auto. }
    destruct Hopen as (Ho & Hr & Hm).
    assert (Hp' : pull (step w ev) =
                  match ev with PlatformPull => AwaitingRead | _ => NotStarted end).
    { rewrite step_pull. unfold next_pull. rewrite Hp, Hm, Ho.
      destruct ev; reflexivity. }
    assert (Hr' : reads (step w ev) = reads w).
    { rewrite step_reads. unfold next_reads. rewrite Hp, Hm.
      destruct ev; reflexivity. }
    destruct ev; try discriminate Hc; cbn [settles_after_pull] in Hlen.
    + eapply failing_returns_awaiting; eauto.
      rewrite Hr', Hr. unfold failing_script.
      rewrite length_app, length_map. cbn. lia.
    + apply IH; assumption.
    + apply IH; assumption.
Qed.

Lemma failing_phase_emitted vs e rest w :
  failing_phase vs e rest w ->
  emitted w `prefix_of` List.map fragment_payload vs.
Proof.
  intros [_ H]. destruct (pull w).
  - destruct H as (_ & _ & _ & ->). apply prefix_nil.
  - destruct H as (_ & _ & k & _ & _ & ->).
    rewrite <- (take_drop k vs) at 2. rewrite map_app. apply prefix_app_r.
    reflexivity.
  - destruct H as (_ & -> & _). reflexivity.
Qed.

Lemma fragment_frames_not_DONE vs :
  ~ In DONE_payload (List.map fragment_payload vs).
Proof.
  intros Hin. apply in_map_iff in Hin as (v & Hv & _).
  exact (content_frame_not_DONE _ (fragment_payload_content v) Hv).
Qed.

(** *** Whatever the consumer does *)

Lemma before_failure_fresh vs e rest cs :
  before_failure vs e rest (fresh StreamPull (failing_script vs e rest) cs).
Proof.
  split; [reflexivity|]. split; [constructor|].
  intros _. exists 0. split; [lia|reflexivity].
Qed.

Lemma before_failure_step vs e rest w ev :
  before_failure vs e rest w -> before_failure vs e rest (step w ev).
Proof.
  intros (Hm & Hc & Hk). split; [rewrite step_mode; exact Hm|].
  rewrite step_emitted, step_pull, step_reads.
  unfold new_frames, next_pull, next_reads. rewrite Hm.
  destruct ev; rewrite ?app_nil_r; try (split; assumption).
  - destruct (pull w) eqn:Hp; rewrite ?app_nil_r; try (split; assumption).
    split; [exact Hc|]. intros _. apply Hk. discriminate.
  - destruct (pull w) eqn:Hp; rewrite ?app_nil_r; try (split; assumption).
    destruct (reads w) as [|r rs] eqn:Hr; rewrite ?app_nil_r;
      [split; assumption|].
    destruct (Hk ltac:(discriminate)) as (k & Hle & Hd).
    pose proof (failing_script_next vs e rest k Hle) as Hnext.
    destruct (vs !! k) as [v|].
    + destruct Hnext as (Hd' & _ & HSk). rewrite Hd' in Hd.
      injection Hd as -> ->. split.
      * destruct (can_close_or_enqueue (ctrl w)); rewrite ?app_nil_r; [|exact Hc].
        cbn [frame_of_read]. destruct (nullish v); rewrite ?app_nil_r; [exact Hc|].
        apply Forall_app. split; [exact Hc|].
        constructor; [apply fragment_payload_content|constructor].
      * intros _. exists (S k). split; [exact HSk|reflexivity].
    + destruct Hnext as (Hd' & _). rewrite Hd' in Hd. injection Hd as -> ->.
      cbn [frame_of_read is_fragment]. rewrite andb_false_r. split.
      * destruct (can_close_or_enqueue (ctrl w)); rewrite app_nil_r; exact Hc.
      * intros H. destruct (H eq_refl).
Qed.

Lemma before_failure_run vs e rest w evs :
  before_failure vs e rest w -> before_failure vs e rest (run w evs).
Proof.
  revert w. induction evs as [|ev evs IH]; intros w Hw; [exact Hw|].
  rewrite run_cons. apply IH, before_failure_step, Hw.
Qed.

Lemma content_frames_no_DONE fs :
  Forall is_content_frame fs -> ~ In DONE_payload fs.
Proof.
  intros Hfs Hin. rewrite List.Forall_forall in Hfs.
  exact (content_frame_not_DONE _ (Hfs _ Hin) eq_refl).
Qed.

(** ** What [cleanup] lets through *)

(** [cleanup] puts no frame into the stream, errors no stream, and
    tells the consumer nothing but, by closing, the end. *)
Lemma cleanup_lets_no_failure_through controller w :
  emitted (snd (cleanup controller w)) = emitted w /\
  (forall e, state (ctrl (snd (cleanup controller w))) = Errored e ->
             state (ctrl w) = Errored e) /\
  exists n, observed (snd (cleanup controller w)) =
            observed w ++ repeat EndOfStream n.
Proof.
  unfold emitted, observed. destruct controller; blast w; tr;
    (split; [reflexivity|]); (split; [let H := fresh "H" in intros ? H; first [exact H|discriminate H]|]);
    first [ exists 0; rewrite app_nil_r; reflexivity
          | eexists; reflexivity ].
Qed.

Lemma forallb_repeat {A} (p : A -> bool) x n :
  p x = true -> forallb p (repeat x n) = true.
Proof. intros H. induction n; cbn; [reflexivity|]. rewrite H, IHn. reflexivity. Qed.

Lemma unfailed_fresh m rs cs : Forall healthy rs -> unfailed (fresh m rs cs).
Proof. intros H. split; [exact H|]. repeat split. Qed.

Ltac unfailed_case :=
  match goal with
  | H : Forall healthy (_ :: _) |- _ =>
      apply Forall_cons in H as [? ?]
  | H : healthy _ |- _ => unfold healthy, frame_of_read in H
  | H : context [nullish ?v], E : nullish ?v = _ |- _ => rewrite E in H
  | H : ?x <> ?x |- _ => destruct (H eq_refl)
  | H : StreamPull = StreamPull -> _ |- _ => specialize (H eq_refl)
  | H : AwaitingRead = AwaitingRead -> _ |- _ => specialize (H eq_refl)
  | H : true = false |- _ => discriminate H
  | H : false = true |- _ => discriminate H
  end.

Lemma unfailed_step w ev :
  unfailed w -> unfailed (step w ev) /\ fst (handle ev w) = Ok tt.
Proof.
  unfold unfailed, observed.
  destruct ev; blast w; intros (Hr & Hs & Ho & Hcr); cbn in *;
    repeat unfailed_case;
    tr; rewrite ?forallb_app, ?Ho; cbn [forallb negb is_failure andb];
    rewrite ?forallb_repeat by reflexivity.
  all: repeat split; auto; try discriminate; constructor.
Qed.

(* ===================================================================== *)
(** * The claims about the output stream                                  *)
(* ===================================================================== *)

Lemma well_terminated_DONE_last fs pre post :
  well_terminated fs -> fs = pre ++ DONE_payload :: post ->
  post = [] /\ Forall is_content_frame pre.
Proof.
  intros (cs & Hcs & [->| ->]) Heq.
  - exfalso. rewrite Heq in Hcs. apply Forall_app in Hcs as [_ Hcs].
    apply Forall_cons in Hcs as [Hd _].
    exact (content_frame_not_DONE _ Hd eq_refl).
  - destruct post as [|x post _] using rev_ind.
    + apply app_inj_tail in Heq as [-> _]. auto.
    + exfalso. rewrite app_comm_cons, app_assoc in Heq.
      apply app_inj_tail in Heq as [-> _].
      apply Forall_app in Hcs as [_ Hcs].
      apply Forall_cons in Hcs as [Hd _].
      exact (content_frame_not_DONE _ Hd eq_refl).
Qed.

Lemma streamResult_fresh up w0 :
  streamResult up = Ok w0 ->
  w0 = fresh StreamPull (read_script up) (cancel_script up).
Proof. unfold streamResult. destruct (locked up); [discriminate|]. congruence. Qed.

(** The stream that the constructor of a single-shot stream returns. *)
Lemma single_chunk_built content functionCall :
  let c := payload_of (ChatCompletionChunk
                         (match content with
                          | JUndefined => JStr EmptyString
                          | _ => content
                          end) functionCall) in
  SingleChunkReadableStream content functionCall =
  Ok (mkWorld SingleShot (mkController Readable true [c; DONE_payload] 0)
              [] [] NotStarted
              [Enqueued c; Enqueued DONE_payload; CloseCalled]).
Proof. reflexivity. Qed.

Lemma single_chunk_world content functionCall :
  exists c,
    is_content_frame c /\
    SingleChunkReadableStream content functionCall =
    Ok (mkWorld SingleShot (mkController Readable true [c; DONE_payload] 0)
                [] [] NotStarted
                [Enqueued c; Enqueued DONE_payload; CloseCalled]).
Proof.
  unfold SingleChunkReadableStream.
  eexists. split; [eexists _, functionCall; reflexivity|reflexivity].
Qed.

(** C1, as the code has it.  The frames a stream emits are content
    frames followed by at most one terminal frame, and nothing follows
    the terminal frame: for every upstream and every schedule in
    stream-pull mode, and always with the terminal frame in single-shot
    mode.  When the upstream yields its fragments and then signals the
    end, and the consumer does not cancel, the frames are the content
    frames of the fragments followed by exactly one terminal frame.
    When a read of the upstream fails, the stream never emits a terminal
    frame, whatever the consumer does: its frames are content frames
    only; and once the failing read has settled, with a consumer that
    does not cancel, the stream is errored with the upstream's error and
    has emitted the content frames of the fragments read before. *)
Theorem emitted_frames_terminated :
  (forall up w0 evs,
      streamResult up = Ok w0 ->
      well_terminated (emitted (run w0 evs))) /\
  (forall fs pre post,
      well_terminated fs -> fs = pre ++ DONE_payload :: post ->
      post = [] /\ Forall is_content_frame pre) /\
  (forall content functionCall w0 evs,
      SingleChunkReadableStream content functionCall = Ok w0 ->
      exists c, is_content_frame c /\ emitted (run w0 evs) = [c; DONE_payload]) /\
  (forall up w0 vs rest evs,
      streamResult up = Ok w0 ->
      read_script up = normal_script vs rest ->
      Forall (fun v => nullish v = false) vs ->
      no_cancel evs ->
      length vs + 1 <= settles_after_pull evs ->
      emitted (run w0 evs) = List.map fragment_payload vs ++ [DONE_payload] /\
      Forall is_content_frame (List.map fragment_payload vs)) /\
  (forall up w0 vs e rest evs,
      streamResult up = Ok w0 ->
      read_script up = failing_script vs e rest ->
      Forall is_content_frame (emitted (run w0 evs)) /\
      ~ In DONE_payload (emitted (run w0 evs)) /\
      (Forall (fun v => nullish v = false) vs ->
       no_cancel evs ->
       length vs + 1 <= settles_after_pull evs ->
       state (ctrl (run w0 evs)) = Errored e /\
       emitted (run w0 evs) = List.map fragment_payload vs)).
Proof.
  split; [|split; [|split; [|split]]].
  - intros up w0 evs H. apply streamResult_fresh in H as ->.
    apply terminated_once_run; [reflexivity|apply terminated_once_fresh].
  - apply well_terminated_DONE_last.
  - intros content functionCall w0 evs H.
    destruct (single_chunk_world content functionCall) as (c & Hc & Hw).
    rewrite Hw in H. injection H as <-.
    exists c. split; [exact Hc|].
    rewrite single_shot_run_emitted; reflexivity.
  - intros up w0 vs rest evs H Hs Hvs Hn Hlen.
    apply streamResult_fresh in H as ->. rewrite Hs.
    destruct (normal_completion vs rest (cancel_script up) evs Hvs Hn Hlen)
      as (_ & He & _).
    split; [exact He|].
    apply List.Forall_forall. intros f Hf. apply in_map_iff in Hf as (v & <- & _).
    apply fragment_payload_content.
  - intros up w0 vs e rest evs H Hs.
    apply streamResult_fresh in H as ->. rewrite Hs.
    destruct (before_failure_run vs e rest _ evs
                (before_failure_fresh vs e rest (cancel_script up)))
      as (_ & Hc & _).
    split; [exact Hc|]. split; [exact (content_frames_no_DONE _ Hc)|].
    intros Hvs Hn Hlen.
    pose proof (conj (failing_phase_fresh vs e rest (cancel_script up))
                  (conj (fifo_fresh StreamPull (failing_script vs e rest)
                           (cancel_script up))
                        (only_chunks_fresh StreamPull (failing_script vs e rest)
                           (cancel_script up)))) as H0.
    pose proof (failing_returns vs e rest _ evs Hvs Hn H0 eq_refl Hlen) as Hp.
    destruct (failing_run vs e rest _ evs Hvs Hn H0) as [[_ Hph] _].
    rewrite Hp in Hph. destruct Hph as (Hst & Hem & _). auto.
Qed.

Lemma emitted_frames_terminated_witness :
  let up := mkUpstream false (normal_script [fragment_with_content "a"] []) [] in
  let w0 := fresh StreamPull (normal_script [fragment_with_content "a"] []) [] in
  let evs := [PlatformPull; UpstreamSettles; UpstreamSettles] in
  let bad := failing_script [fragment_with_content "a"] (Error "boom") [ReadDone] in
  streamResult up = Ok w0 /\
  well_terminated (emitted (run w0 evs)) /\
  (emitted (run w0 evs) =
   List.map fragment_payload [fragment_with_content "a"] ++ [DONE_payload] /\
   Forall is_content_frame (List.map fragment_payload [fragment_with_content "a"])) /\
  (exists c, is_content_frame c /\
             emitted (run (mkWorld SingleShot
                             (mkController Readable true
                                [payload_of (ChatCompletionChunk (JStr "hello") JUndefined);
                                 DONE_payload] 0)
                             [] [] NotStarted
                             [Enqueued (payload_of (ChatCompletionChunk (JStr "hello") JUndefined));
                              Enqueued DONE_payload; CloseCalled])
                          [ConsumerRead]) = [c; DONE_payload]) /\
  (state (ctrl (run (fresh StreamPull bad []) evs)) = Errored (Error "boom") /\
   emitted (run (fresh StreamPull bad []) evs) =
   List.map fragment_payload [fragment_with_content "a"]).
Proof.
  intros up w0 evs bad.
  split; [reflexivity|].
  split; [exact (proj1 emitted_frames_terminated up w0 evs eq_refl)|].
  split; [|split].
  - apply (proj1 (proj2 (proj2 (proj2 emitted_frames_terminated))) up w0
             [fragment_with_content "a"] [] evs).
    + reflexivity.
    + reflexivity.
    + repeat constructor.
    + reflexivity.
    + cbn. lia.
  - apply (proj1 (proj2 (proj2 emitted_frames_terminated))
             (JStr "hello") JUndefined).
    reflexivity.
  - apply (proj2 (proj2 (proj2 (proj2 (proj2 emitted_frames_terminated)))
                    (mkUpstream false bad []) (fresh StreamPull bad [])
                    [fragment_with_content "a"] (Error "boom") [ReadDone] evs
                    eq_refl eq_refl)).
    + repeat constructor.
    + reflexivity.
    + cbn. lia.
Defined.

(** C1, as the specification states it, fails: the stream over an
    upstream whose first read is rejected never emits the terminal
    frame, whatever happens to it; it ends errored. *)
Lemma upstream_failure_emits_no_DONE :
  let up := mkUpstream false [ReadRejects (Error "boom")] [] in
  exists w0,
    streamResult up = Ok w0 /\
    (forall evs, emitted (run w0 evs) = []) /\
    (forall evs, ~ In DONE_payload (emitted (run w0 evs))) /\
    state (ctrl (run w0 [PlatformPull; UpstreamSettles])) = Errored (Error "boom").
Proof.
  intros up. eexists. split; [reflexivity|].
  assert (Hnone : forall evs,
             emitted (run (fresh StreamPull [ReadRejects (Error "boom")] []) evs) = []).
  { intros evs.
    destruct (in_order_run [ReadRejects (Error "boom")]
                (fresh StreamPull [ReadRejects (Error "boom")] []) evs eq_refl
                (in_order_fresh _ [])) as (_ & _ & _ & k & Hk).
    rewrite Hk. destruct k as [|[|k]]; reflexivity. }
  split; [exact Hnone|]. split; [|reflexivity].
  intros evs Hin. rewrite Hnone in Hin. exact Hin.
Qed.

(** C2, as the code has it.  Over an upstream that yields the fragments
    with contents a and b and then ends, a consumer that does not cancel
    and lets three reads settle gets a stream that emitted exactly three
    records, content a, content b and the terminal record; the upstream
    cursor is cancelled once, after the terminal record is enqueued and
    after the controller has been closed, in the turn of the loop in
    which [pull] returns. *)
Theorem two_fragments_then_done :
  forall rest cs evs,
    no_cancel evs ->
    3 <= settles_after_pull evs ->
    let w := run (fresh StreamPull
                    (ReadValue (fragment_with_content "a") ::
                     ReadValue (fragment_with_content "b") ::
                     ReadDone :: rest) cs) evs in
    emitted w = [text_record "a"; text_record "b"; DONE_payload] /\
    pull w = Returned /\
    cancel_calls w = 1 /\
    occurs_before (is_enqueue_of DONE_payload) is_close_called (trace w) /\
    occurs_before is_close_called is_cursor_cancel (trace w).
Proof.
  intros rest cs evs Hn Hlen w.
  destruct (normal_completion
              [fragment_with_content "a"; fragment_with_content "b"] rest cs evs)
    as (Hp & He & Hc & Hb1 & Hb2).
  - repeat constructor.
  - exact Hn.
  - exact Hlen.
  - repeat split; assumption.
Qed.

Lemma two_fragments_then_done_witness :
  let w := run (fresh StreamPull
                  [ReadValue (fragment_with_content "a");
                   ReadValue (fragment_with_content "b");
                   ReadDone] [])
               [PlatformPull; ConsumerRead; UpstreamSettles; UpstreamSettles;
                UpstreamSettles] in
  emitted w = [text_record "a"; text_record "b"; DONE_payload] /\
  pull w = Returned /\
  cancel_calls w = 1 /\
  occurs_before (is_enqueue_of DONE_payload) is_close_called (trace w) /\
  occurs_before is_close_called is_cursor_cancel (trace w).
Proof.
  apply (two_fragments_then_done [] []
           [PlatformPull; ConsumerRead; UpstreamSettles; UpstreamSettles;
            UpstreamSettles]).
  - reflexivity.
  - cbn. lia.
Defined.

(** C2, as the specification states it, fails: the cursor is not
    released before completion is signalled.  With a consumer that has
    four reads waiting, the controller is closed, the stream becomes
    closed and the fourth read settles with end-of-stream, and only then
    is the cursor cancelled; with a consumer that has not read yet, the
    controller is closed before the cursor is cancelled. *)
Lemma cursor_cancelled_after_completion :
  let script := [ReadValue (fragment_with_content "a");
                 ReadValue (fragment_with_content "b");
                 ReadDone] in
  let waiting := run (fresh StreamPull script [])
                     [ConsumerRead; ConsumerRead; ConsumerRead; ConsumerRead;
                      PlatformPull; UpstreamSettles; UpstreamSettles;
                      UpstreamSettles] in
  let idle := run (fresh StreamPull script [])
                  [PlatformPull; UpstreamSettles; UpstreamSettles;
                   UpstreamSettles] in
  trace waiting =
    [Enqueued (text_record "a"); Delivered (Chunk (text_record "a"));
     Enqueued (text_record "b"); Delivered (Chunk (text_record "b"));
     Enqueued DONE_payload; Delivered (Chunk DONE_payload);
     CloseCalled; StreamClosed; Delivered EndOfStream; CursorCancelCalled] /\
  trace idle =
    [Enqueued (text_record "a"); Enqueued (text_record "b");
     Enqueued DONE_payload; CloseCalled; CursorCancelCalled] /\
  ~ occurs_before is_cursor_cancel signals_completion (trace waiting) /\
  ~ occurs_before is_cursor_cancel signals_completion (trace idle).
Proof.
  intros script waiting idle.
  split; [vm_compute; reflexivity|]. split; [vm_compute; reflexivity|].
  split; intros (i & j & Hi & Hj & Hlt); vm_compute in Hi, Hj;
    injection Hi as <-; injection Hj as <-; lia.
Qed.

(** C3, as the code has it.  A single-shot stream is built with its two
    frames already enqueued, by [start] inside the constructor and
    before any pull or read: the content frame, carrying the content
    (the empty string for an undefined one) and the function call if
    there is one, then the terminal frame; the controller is closed in
    the same call.  Nothing is enqueued afterwards.  The consumer is
    handed the two frames by its first two reads, the second of which
    closes the stream, and every later read reports the end.  For the
    content hello without a function call the content frame is the
    record with role assistant and content hello and no function_call
    key. *)
Theorem single_shot_two_frames :
  (forall content functionCall,
      let c := payload_of (ChatCompletionChunk
                             (match content with
                              | JUndefined => JStr EmptyString
                              | _ => content
                              end) functionCall) in
      exists w,
        SingleChunkReadableStream content functionCall = Ok w /\
        trace w = [Enqueued c; Enqueued DONE_payload; CloseCalled] /\
        queue (ctrl w) = [c; DONE_payload] /\
        (forall evs, emitted (run w evs) = [c; DONE_payload]) /\
        observed (run w [ConsumerRead; ConsumerRead; ConsumerRead; ConsumerRead]) =
          [Chunk c; Chunk DONE_payload; EndOfStream; EndOfStream] /\
        state (ctrl (run w [ConsumerRead])) = Readable /\
        state (ctrl (run w [ConsumerRead; ConsumerRead])) = Closed) /\
  payload_of (ChatCompletionChunk (JStr "hello") JUndefined) = text_record "hello" /\
  printed_keys (delta_fields (JStr "hello") JUndefined) = ["role"; "content"].
Proof.
  split; [|split; vm_compute; reflexivity].
  intros content functionCall c.
  exists (mkWorld SingleShot (mkController Readable true [c; DONE_payload] 0)
                  [] [] NotStarted
                  [Enqueued c; Enqueued DONE_payload; CloseCalled]).
  split; [reflexivity|]. split; [reflexivity|]. split; [reflexivity|].
  split; [|split; [|split]]; try reflexivity.
  intros evs. rewrite single_shot_run_emitted; reflexivity.
Qed.

(** C3, as the specification states it, fails: the two frames are not
    produced on the first pull.  The stream for hello comes out of its
    constructor with both frames enqueued and the close requested, when
    the platform has not pulled and the consumer has not read. *)
Lemma single_shot_frames_before_any_pull :
  exists w,
    SingleChunkReadableStream (JStr "hello") JUndefined = Ok w /\
    pull w = NotStarted /\
    observed w = [] /\
    emitted w = [text_record "hello"; DONE_payload] /\
    closeRequested (ctrl w) = true.
Proof.
  eexists. split; [exact (single_chunk_built (JStr "hello") JUndefined)|].
  split; [reflexivity|]. split; [reflexivity|].
  split; [|reflexivity].
  vm_compute. reflexivity.
Qed.

(** C4.  In stream-pull mode, a turn of the pull loop takes one answer
    from the upstream cursor, and for a fragment it enqueues exactly one
    content frame and leaves [pull] suspended at the next read.  For
    every upstream and every schedule, the frames emitted are the frames
    of the cursor's answers in the order the answers came, the consumer
    has been handed an initial stretch of them in that same order, and
    a terminal frame, if emitted, is the last frame. *)
Theorem pull_one_frame_per_read_fifo :
  (forall w v rs,
      mode w = StreamPull -> pull w = AwaitingRead -> open w ->
      reads w = ReadValue v :: rs -> nullish v = false ->
      let w' := step w UpstreamSettles in
      emitted w' = emitted w ++ [fragment_payload v] /\
      is_content_frame (fragment_payload v) /\
      reads w' = rs /\
      pull w' = AwaitingRead) /\
  (forall up w0 evs,
      streamResult up = Ok w0 ->
      let w := run w0 evs in
      (exists k, emitted w = omap frame_of_read (take k (read_script up))) /\
      chunks_of (observed w) `prefix_of` emitted w /\
      well_terminated (emitted w) /\
      (forall pre post, emitted w = pre ++ DONE_payload :: post -> post = [])).
Proof.
  split.
  - intros w v rs Hm Hp Ho Hr Hv w'. subst w'.
    rewrite step_emitted, step_reads, step_pull.
    unfold new_frames, next_reads, next_pull.
    unfold open in Ho. rewrite Hm, Hp, Hr, Ho. cbn. rewrite Hv. cbn.
    repeat split. apply fragment_payload_content.
  - intros up w0 evs H w. subst w. apply streamResult_fresh in H as ->.
    split; [|split; [|split]].
    + destruct (in_order_run (read_script up)
                  (fresh StreamPull (read_script up) (cancel_script up)) evs
                  eq_refl (in_order_fresh _ _)) as (_ & _ & _ & k & Hk).
      exists k. exact Hk.
    + apply fifo_prefix, fifo_run, fifo_fresh.
    + apply terminated_once_run; [reflexivity|apply terminated_once_fresh].
    + intros pre post Heq.
      eapply well_terminated_DONE_last; [|exact Heq].
      apply terminated_once_run; [reflexivity|apply terminated_once_fresh].
Qed.

Lemma pull_one_frame_per_read_fifo_witness :
  let up := mkUpstream false [ReadValue (fragment_with_content "a"); ReadDone] [] in
  let w0 := fresh StreamPull [ReadValue (fragment_with_content "a"); ReadDone] [] in
  let w1 := step w0 PlatformPull in
  (emitted (step w1 UpstreamSettles) = emitted w1 ++ [text_record "a"] /\
   is_content_frame (fragment_payload (fragment_with_content "a")) /\
   reads (step w1 UpstreamSettles) = [ReadDone] /\
   pull (step w1 UpstreamSettles) = AwaitingRead) /\
  ((exists k, emitted (run w0 [PlatformPull; UpstreamSettles; ConsumerRead]) =
              omap frame_of_read (take k (read_script up))) /\
   chunks_of (observed (run w0 [PlatformPull; UpstreamSettles; ConsumerRead]))
     `prefix_of` emitted (run w0 [PlatformPull; UpstreamSettles; ConsumerRead]) /\
   well_terminated (emitted (run w0 [PlatformPull; UpstreamSettles; ConsumerRead])) /\
   (forall pre post,
       emitted (run w0 [PlatformPull; UpstreamSettles; ConsumerRead]) =
       pre ++ DONE_payload :: post -> post = [])).
Proof.
  intros up w0 w1. split.
  - apply (proj1 pull_one_frame_per_read_fifo w1 (fragment_with_content "a")
             [ReadDone]); reflexivity.
  - apply (proj2 pull_one_frame_per_read_fifo up w0). reflexivity.
Defined.

(** On a stream that is no longer readable, [cleanup] changes nothing
    but the count of calls on the cursor. *)
Lemma cleanup_again controller w :
  is_readable (state (ctrl w)) = false ->
  fst (cleanup controller w) = Ok tt /\
  ctrl (snd (cleanup controller w)) = ctrl w /\
  pull (snd (cleanup controller w)) = pull w /\
  emitted (snd (cleanup controller w)) = emitted w /\
  observed (snd (cleanup controller w)) = observed w.
Proof.
  unfold emitted, observed. destruct controller; blast w;
    intros Hs; try discriminate Hs; tr; repeat split; reflexivity.
Qed.

Lemma observed_grows w evs : observed w `prefix_of` observed (run w evs).
Proof.
  destruct (run_trace w evs) as [es Hes]. unfold observed.
  rewrite Hes, observed_of_app. eexists. reflexivity.
Qed.

Lemma read_errored w e :
  state (ctrl w) = Errored e ->
  observed (step w ConsumerRead) = observed w ++ [Failure e].
Proof.
  intros Hs. unfold observed. blast_in w; tr; reflexivity.
Qed.

(** C5, as the code has it.  When the upstream yields some fragments
    and its next read fails, and the consumer does not cancel: the call
    that built the stream has returned it; the frames ever emitted are
    content frames of the fragments, in order, never a terminal frame;
    once the failing read has settled, the stream is errored with the
    upstream's error, [pull] has returned, every fragment's frame was
    enqueued before the error was raised, and the cursor has been
    cancelled exactly once, after the error was raised on the stream.
    The consumer has seen the first frames, as far as they were handed
    to it before the failure (a frame still queued is dropped when the
    stream errors), and then the error, which every later read gives
    again; what it has seen is never taken back.  Running [cleanup]
    again then succeeds and leaves the stream as it is. *)
Theorem upstream_read_failure :
  forall vs e rest cs evs,
    Forall (fun v => nullish v = false) vs -> no_cancel evs ->
    let fs := List.map fragment_payload vs in
    exists w0,
      streamResult (mkUpstream false (failing_script vs e rest) cs) = Ok w0 /\
      let w := run w0 evs in
      emitted w `prefix_of` fs /\
      ~ In DONE_payload (emitted w) /\
      (forall evs', observed w `prefix_of` observed (run w evs')) /\
      (length vs + 1 <= settles_after_pull evs ->
       pull w = Returned /\
       state (ctrl w) = Errored e /\
       emitted w = fs /\
       cancel_calls w = 1 /\
       (forall f, In f fs ->
                  occurs_before (is_enqueue_of f) is_sink_errored (trace w)) /\
       occurs_before is_sink_errored is_cursor_cancel (trace w) /\
       seen_before_failure fs e (observed w) /\
       observed (step w ConsumerRead) = observed w ++ [Failure e] /\
       (forall controller,
           fst (cleanup controller w) = Ok tt /\
           ctrl (snd (cleanup controller w)) = ctrl w /\
           pull (snd (cleanup controller w)) = pull w /\
           emitted (snd (cleanup controller w)) = emitted w /\
           observed (snd (cleanup controller w)) = observed w)).
Proof.
  intros vs e rest cs evs Hvs Hn fs.
  exists (fresh StreamPull (failing_script vs e rest) cs).
  split; [reflexivity|]. cbn zeta.
  pose proof (conj (failing_phase_fresh vs e rest cs)
                (conj (fifo_fresh StreamPull (failing_script vs e rest) cs)
                      (only_chunks_fresh StreamPull (failing_script vs e rest) cs)))
    as H0.
  destruct (failing_run vs e rest _ evs Hvs Hn H0) as [Hph _].
  pose proof (failing_phase_emitted _ _ _ _ Hph) as Hpre.
  split; [exact Hpre|].
  split.
  { intros Hin. apply (fragment_frames_not_DONE vs).
    destruct Hpre as [k Hk]. rewrite Hk. apply in_or_app. auto. }
  split; [intros evs'; apply observed_grows|].
  intros Hlen.
  pose proof (failing_returns vs e rest _ evs Hvs Hn H0 eq_refl Hlen) as Hp.
  destruct Hph as [_ Hph]. rewrite Hp in Hph.
  destruct Hph as (Hs & He & Hc & Hb1 & Hb2 & Hseen).
  fold fs in He. rewrite He in Hb1, Hseen.
  repeat (split; [assumption|]).
  split; [apply read_errored, Hs|].
  intros controller. apply cleanup_again. rewrite Hs. reflexivity.
Qed.

Lemma upstream_read_failure_witness :
  let a := fragment_with_content "a" in
  let e := Error "boom" in
  let w := run (fresh StreamPull [ReadValue a; ReadRejects e] [])
               [ConsumerRead; PlatformPull; UpstreamSettles; UpstreamSettles;
                ConsumerRead] in
  pull w = Returned /\
  state (ctrl w) = Errored e /\
  emitted w = [text_record "a"] /\
  cancel_calls w = 1 /\
  observed w = [Chunk (text_record "a"); Failure e].
Proof.
  intros a e w.
  destruct (upstream_read_failure [a] e [] []
              [ConsumerRead; PlatformPull; UpstreamSettles; UpstreamSettles;
               ConsumerRead] ltac:(repeat constructor) eq_refl)
    as (w0 & Hw0 & _ & _ & _ & H).
  injection Hw0 as <-.
  destruct (H ltac:(cbn; lia)) as (Hp & Hs & He & Hc & _).
  split; [exact Hp|]. split; [exact Hs|]. split; [exact He|].
  split; [exact Hc|]. reflexivity.
Defined.

(** C5, as the specification states it, fails: a consumer that reads
    only after the failure does not observe the frame that was emitted.
    The content frame for a was enqueued, the second read failed, the
    stream was errored with the frame still in its queue, and both reads
    of the consumer settle with the error. *)
Lemma queued_frame_lost_on_failure :
  let w := run (fresh StreamPull
                  [ReadValue (fragment_with_content "a");
                   ReadRejects (Error "boom")] [])
               [PlatformPull; UpstreamSettles; UpstreamSettles;
                ConsumerRead; ConsumerRead] in
  emitted w = [text_record "a"] /\
  observed w = [Failure (Error "boom"); Failure (Error "boom")] /\
  ~ In (Chunk (text_record "a")) (observed w).
Proof.
  intros w. split; [vm_compute; reflexivity|]. split; [vm_compute; reflexivity|].
  intros Hin. vm_compute in Hin.
  destruct Hin as [H|[H|[]]]; discriminate H.
Qed.

Lemma no_failure_seen ds :
  forallb (fun d => negb (is_failure d)) ds = true ->
  forall e, ~ In (Failure e) ds.
Proof.
  intros H e Hin. rewrite forallb_forall in H.
  specialize (H _ Hin). discriminate H.
Qed.

Lemma unfailed_run w evs : unfailed w -> unfailed (run w evs).
Proof.
  revert w. induction evs as [|ev evs IH]; intros w Hw; [exact Hw|].
  rewrite run_cons. apply IH, unfailed_step, Hw.
Qed.

(** C6.  [cleanup] never throws: what closing the controller or
    cancelling the cursor throws is caught, whatever state the stream
    and the cursor are in.  So the source's [cancel] never throws, a
    turn of the pull loop never throws, and cancelling a stream that has
    just been built, in either mode, succeeds.  The seventh part shows
    that there is something to catch: on a closed stream whose cursor
    throws, both steps throw and [cleanup] still returns.  Nor does
    what [cleanup] catches reach the consumer: [cleanup] errors no
    stream, puts no frame into it and settles reads of the consumer with
    the end of the stream only; so over a cursor whose reads all
    succeed, whatever its [cancel] throws and whatever the consumer
    does, the stream is never errored, no read of the consumer is ever
    rejected, and nothing the platform or the consumer calls throws;
    the same holds of a single-shot stream. *)
Theorem cleanup_never_raises :
  (forall controller w, fst (cleanup controller w) = Ok tt) /\
  (forall w, fst (source_cancel w) = Ok tt) /\
  (forall r w, exists p, fst (pull_iteration r w) = Ok p) /\
  (forall up w0, streamResult up = Ok w0 -> fst (consumer_cancel w0) = Ok tt) /\
  (forall content functionCall w0,
      SingleChunkReadableStream content functionCall = Ok w0 ->
      fst (consumer_cancel w0) = Ok tt) /\
  (forall w, (forall e, state (ctrl w) <> Errored e) ->
             fst (consumer_cancel w) = Ok tt) /\
  (forall m rs e cs p t,
      let w := mkWorld m (mkController Closed true [] 0) rs
                       (CancelThrows e :: cs) p t in
      (exists e1, fst (controller_close w) = Throw e1) /\
      fst (reader_cancel w) = Throw e /\
      fst (cleanup true w) = Ok tt) /\
  (forall controller w,
      emitted (snd (cleanup controller w)) = emitted w /\
      (forall e, state (ctrl (snd (cleanup controller w))) = Errored e ->
                 state (ctrl w) = Errored e) /\
      exists n, observed (snd (cleanup controller w)) =
                observed w ++ repeat EndOfStream n) /\
  (forall up w0 evs ev,
      streamResult up = Ok w0 ->
      Forall healthy (read_script up) ->
      (forall e, state (ctrl (run w0 evs)) <> Errored e) /\
      (forall e, ~ In (Failure e) (observed (run w0 evs))) /\
      fst (handle ev (run w0 evs)) = Ok tt) /\
  (forall content functionCall w0 evs ev,
      SingleChunkReadableStream content functionCall = Ok w0 ->
      (forall e, state (ctrl (run w0 evs)) <> Errored e) /\
      (forall e, ~ In (Failure e) (observed (run w0 evs))) /\
      fst (handle ev (run w0 evs)) = Ok tt).
Proof.
  assert (Hcl : forall controller w, fst (cleanup controller w) = Ok tt).
  { intros controller w. destruct controller; blast w; reflexivity. }
  assert (Hsrc : forall w, fst (source_cancel w) = Ok tt).
  { intros w. blast w; reflexivity. }
  assert (Hcc : forall w, (forall e, state (ctrl w) <> Errored e) ->
                          fst (consumer_cancel w) = Ok tt).
  { intros w. blast w; intros H; try reflexivity.
    all: exfalso; eapply H; reflexivity. }
  assert (Hun : forall w evs ev,
             unfailed w ->
             (forall e, state (ctrl (run w evs)) <> Errored e) /\
             (forall e, ~ In (Failure e) (observed (run w evs))) /\
             fst (handle ev (run w evs)) = Ok tt).
  { intros w evs ev Hw. apply (unfailed_run w evs) in Hw.
    destruct (unfailed_step _ ev Hw) as [_ Hok].
    destruct Hw as (_ & Hs & Ho & _).
    split; [intros e He; rewrite He in Hs; discriminate Hs|].
    split; [exact (no_failure_seen _ Ho)|exact Hok]. }
  split; [exact Hcl|]. split; [exact Hsrc|].
  split; [|split; [|split; [|split; [|split; [|split; [|split]]]]]].
  - intros r w. destruct r; blast w; eexists; reflexivity.
  - intros up w0 H. apply streamResult_fresh in H as ->.
    apply Hcc. intros e. discriminate.
  - intros content functionCall w0 H.
    destruct (single_chunk_world content functionCall) as (c & _ & Hw).
    rewrite Hw in H. injection H as <-. apply Hcc. intros e. discriminate.
  - exact Hcc.
  - intros m rs e cs p t w. split; [eexists; reflexivity|].
    split; reflexivity.
  - exact cleanup_lets_no_failure_through.
  - intros up w0 evs ev H Hr. apply streamResult_fresh in H as ->.
    apply Hun, unfailed_fresh, Hr.
  - intros content functionCall w0 evs ev H.
    destruct (single_chunk_world content functionCall) as (c & _ & Hw).
    rewrite Hw in H. injection H as <-. apply Hun.
    split; [constructor|]. repeat split. intros Hm. discriminate Hm.
Qed.

Lemma cleanup_never_raises_witness :
  fst (consumer_cancel
         (fresh StreamPull [ReadValue (fragment_with_content "a")]
                [CancelThrows (Error "cursor")])) = Ok tt /\
  fst (consumer_cancel
         (mkWorld SingleShot
            (mkController Readable true
               [payload_of (ChatCompletionChunk (JStr "hello") JUndefined);
                DONE_payload] 0)
            [] [] NotStarted
            [Enqueued (payload_of (ChatCompletionChunk (JStr "hello") JUndefined));
             Enqueued DONE_payload; CloseCalled])) = Ok tt /\
  fst (consumer_cancel
         (mkWorld StreamPull (mkController Closed false [] 0) [] []
                  Returned [])) = Ok tt /\
  (let w := run (fresh StreamPull [ReadValue (fragment_with_content "a"); ReadDone]
                       [CancelThrows (Error "cursor")])
                [PlatformPull; UpstreamSettles; UpstreamSettles; ConsumerRead] in
   (forall e, state (ctrl w) <> Errored e) /\
   (forall e, ~ In (Failure e) (observed w)) /\
   fst (handle ConsumerRead w) = Ok tt).
Proof.
  split; [|split; [|split]].
  - apply (proj1 (proj2 (proj2 (proj2 cleanup_never_raises)))
             (mkUpstream false [ReadValue (fragment_with_content "a")]
                         [CancelThrows (Error "cursor")])).
    reflexivity.
  - apply (proj1 (proj2 (proj2 (proj2 (proj2 cleanup_never_raises))))
             (JStr "hello") JUndefined).
    reflexivity.
  - apply (proj1 (proj2 (proj2 (proj2 (proj2 (proj2 cleanup_never_raises)))))).
    intros e. discriminate.
  - apply (proj1 (proj2 (proj2 (proj2 (proj2 (proj2 (proj2 (proj2 (proj2
             cleanup_never_raises))))))))
             (mkUpstream false [ReadValue (fragment_with_content "a"); ReadDone]
                         [CancelThrows (Error "cursor")])).
    + reflexivity.
    + repeat constructor; discriminate.
Defined.

(** ** The content key *)


(** [JSON.stringify] prints an object as its printed keys, each with
    its value, in order. *)
Lemma serialize_object fields :
  serialize (JObj fields) =
  Some ("{" +:+
        join "," (List.map (fun p => quote (fst p) +:+ ":" +:+ JSON_stringify (snd p))
                           (List.filter (fun p => is_printed (snd p)) fields))
        +:+ "}").
Proof.
  cbn [serialize]. do 4 f_equal.
  induction fields as [|[k v] fields IH]; [reflexivity|].
  cbn [List.map List.concat List.filter fst snd]. rewrite IH.
  destruct (serialize v) as [t|] eqn:Hv.
  - replace (is_printed v) with true by (unfold is_printed; rewrite Hv; reflexivity).
    cbn [List.map fst snd app]. unfold JSON_stringify. cbn [fst snd].
    rewrite Hv. reflexivity.
  - replace (is_printed v) with false by (unfold is_printed; rewrite Hv; reflexivity).
    reflexivity.
Qed.



(* ===================================================================== *)
(** * Properties of transformProps                                        *)
(* ===================================================================== *)

Section PropsFacts.
Import Props.

Lemma cell_at_lookup (h : list Cell) l c : h !! l = Some c -> cell_at h l = c.
Proof. unfold cell_at, Heap. intros ->. reflexivity. Qed.

Lemma field_set_field k v fs : field k (set_field k v fs) = v.
Proof.
  unfold field. induction fs as [|[k' v'] fs IH]; cbn.
  - rewrite String.eqb_refl. reflexivity.
  - destruct (String.eqb k k') eqn:Hk; cbn.
    + rewrite String.eqb_refl. reflexivity.
    + rewrite Hk. exact IH.
Qed.

Lemma assoc_set_field_ne k k' v (fs : list (string * Val)) :
  k' <> k -> assoc k' (set_field k v fs) = assoc k' fs.
Proof.
  intros Hne. induction fs as [|[k0 v0] fs IH]; cbn.
  - destruct (String.eqb k' k) eqn:Hk; [|reflexivity].
    apply String.eqb_eq in Hk. contradiction.
  - destruct (String.eqb k k0) eqn:Hk0; cbn.
    + apply String.eqb_eq in Hk0 as <-.
      destruct (String.eqb k' k) eqn:Hk; [|reflexivity].
      apply String.eqb_eq in Hk. contradiction.
    + rewrite IH. reflexivity.
Qed.

(** A write at or beyond the end of a heap leaves the heap a prefix. *)
Lemma prefix_store (h hcur : list Cell) l c :
  h `prefix_of` hcur -> length h <= l -> h `prefix_of` <[l := c]> hcur.
Proof.
  intros [t ->] Hl. rewrite insert_app_r_alt by exact Hl. eexists. reflexivity.
Qed.

Lemma prefix_alloc (h hcur : list Cell) c :
  h `prefix_of` hcur -> h `prefix_of` hcur ++ [c].
Proof. intros [t ->]. rewrite <- app_assoc. eexists. reflexivity. Qed.

Lemma prefix_lookup (h hcur : list Cell) l c :
  h `prefix_of` hcur -> h !! l = Some c -> hcur !! l = Some c.
Proof. intros [t ->] H. apply lookup_app_l_Some, H. Qed.

(** Reads and writes in the cells added to a heap. *)
Lemma cell_at_added (h t : list Cell) i :
  cell_at (h ++ t) (length h + i) =
  match t !! i with Some c => c | None => CObject PlainObject [] end.
Proof.
  unfold cell_at, Heap, loc. rewrite lookup_app_r by lia.
  replace (length h + i - length h) with i by lia. reflexivity.
Qed.

Lemma insert_added (h t : list Cell) i c :
  <[length h + i := c]> (h ++ t) = h ++ <[i := c]> t.
Proof.
  rewrite insert_app_r_alt by lia.
  replace (length h + i - length h) with i by lia. reflexivity.
Qed.

(** The constructor on a string: it adds four cells and touches no
    other. *)
Lemma new_message_string cls s (h : list Cell) :
  new_message cls (VStr s) h =
  (Ok (VRef (length h + 3)), h ++ message_cells cls s (length h)).
Proof.
  unfold new_message, default_prop, assign, set_prop, get_prop, alloc, store,
    bind, ret, get, modify, lift, throw, read_prop, message_cells.
  cbn beta iota.
  repeat (rewrite <- ?app_assoc, ?length_app; cbn [app length];
          rewrite ?cell_at_added, ?insert_added;
          cbn [lookup list_lookup field assoc String.eqb Ascii.eqb Bool.eqb truthy
               set_field list_insert insert fst snd]).
  reflexivity.
Qed.

(** What one turn of the loop over the messages does, for a turn that
    is an object with a string for content. *)
Lemma convert_message_turn (hcur : list Cell) nm l c o :
  hcur !! l = Some (CObject c o) -> text_turn o ->
  convert_message nm (VRef l) hcur =
  match class_of_role (field "role" o), field "content" o with
  | Some cls, VStr s =>
      push nm (VRef (length hcur + 3)) (hcur ++ message_cells cls s (length hcur))
  | _, _ => (Ok tt, hcur)
  end.
Proof.
  intros Hl Ht. unfold text_turn, class_of_role in *.
  unfold convert_message, get_prop, bind, get, lift, read_prop.
  rewrite (cell_at_lookup _ _ _ Hl).
  destruct (is_string (field "role" o) "user");
    [destruct Ht as [s Hs]; [discriminate|]; cbn beta;
     rewrite (cell_at_lookup _ _ _ Hl), Hs, new_message_string; reflexivity|].
  destruct (is_string (field "role" o) "assistant");
    [destruct Ht as [s Hs]; [discriminate|]; cbn beta;
     rewrite (cell_at_lookup _ _ _ Hl), Hs, new_message_string; reflexivity|].
  destruct (is_string (field "role" o) "system");
    [destruct Ht as [s Hs]; [discriminate|]; cbn beta;
     rewrite (cell_at_lookup _ _ _ Hl), Hs, new_message_string; reflexivity|].
  reflexivity.
Qed.

Lemma convert_message_object (hcur : list Cell) nm l c o acc :
  hcur !! l = Some (CObject c o) ->
  hcur !! nm = Some (CArray acc) ->
  text_turn o ->
  convert_message nm (VRef l) hcur =
  (Ok tt,
   match class_of_role (field "role" o), field "content" o with
   | Some cls, VStr s =>
       <[nm := CArray (acc ++ [VRef (length hcur + 3)])]>
         (hcur ++ message_cells cls s (length hcur))
   | _, _ => hcur
   end).
Proof.
  intros Hl Hnm Ht. rewrite (convert_message_turn hcur nm l c o Hl Ht).
  destruct (class_of_role (field "role" o)) as [cls|]; [|reflexivity].
  destruct (field "content" o) as [| | |s|]; try reflexivity.
  unfold push, bind, get, store, modify.
  rewrite (cell_at_lookup _ nm (CArray acc)) by (apply lookup_app_l_Some, Hnm).
  reflexivity.
Qed.

(** Rules for [keeps]. *)
Lemma keeps_ret (h : list Cell) {A} (a : A) (Q : A -> Prop) :
  Q a -> keeps h (ret a) Q.
Proof. intros HQ s Hs. split; [exact Hs|]. cbn. intros a' [= <-]. exact HQ. Qed.

Lemma keeps_bind (h : list Cell) {A B} (m : M Heap A) (k : A -> M Heap B)
  (Q : A -> Prop) (R : B -> Prop) :
  keeps h m Q -> (forall a, Q a -> keeps h (k a) R) -> keeps h (bind m k) R.
Proof.
  intros Hm Hk s Hs. unfold bind.
  destruct (Hm s Hs) as [Hs' HQ].
  destruct (m s) as [[a|e] s']; cbn in *.
  - apply (Hk a (HQ a eq_refl) s' Hs').
  - split; [exact Hs'|]. intros a [=].
Qed.

Lemma keeps_get (h : list Cell) : keeps h get (fun s => h `prefix_of` s).
Proof. intros s Hs. split; [exact Hs|]. cbn. intros a [= <-]. exact Hs. Qed.

Lemma keeps_store (h : list Cell) l c :
  length h <= l -> keeps h (store l c) (fun _ => True).
Proof. intros Hl s Hs. split; [apply prefix_store; assumption|auto]. Qed.

Lemma keeps_push (h : list Cell) a v :
  length h <= a -> keeps h (push a v) (fun _ => True).
Proof.
  intros Ha. unfold push. eapply keeps_bind; [apply keeps_get|].
  intros s _. destruct (cell_at s a); [apply keeps_ret; exact I|].
  apply keeps_store, Ha.
Qed.

Lemma keeps_set_prop (h : list Cell) l k v :
  length h <= l -> keeps h (set_prop l k v) (fun _ => True).
Proof.
  intros Hl. unfold set_prop. eapply keeps_bind; [apply keeps_get|].
  intros s _. destruct (cell_at s l); [|apply keeps_ret; exact I].
  apply keeps_store, Hl.
Qed.

(** One turn of the loop keeps the caller's heap, when the content that
    a message is made of is a string: the constructor is then given no
    reference to a cell of the caller. *)
Lemma keeps_convert_message (h : list Cell) nm message :
  length h <= nm -> text_element h message ->
  keeps h (convert_message nm message) (fun _ => True).
Proof.
  intros Hnm Ht s Hs. split; [|auto].
  destruct message as [| |b|t|l]; try exact Hs.
  unfold text_element, Heap, loc in *.
  destruct (@lookup nat _ _ _ l h) as [[c o|es]|] eqn:Hl; [| |exfalso; exact Ht].
  - rewrite (convert_message_turn s nm l c o (prefix_lookup _ _ _ _ Hs Hl) Ht).
    destruct (class_of_role (field "role" o)) as [cls|]; [|exact Hs].
    destruct (field "content" o) as [| | |t|]; try exact Hs.
    apply (keeps_push h nm _ Hnm). apply prefix_app_r, Hs.
  - unfold convert_message, get_prop, bind, get, lift, read_prop.
    rewrite (cell_at_lookup s l (CArray es)) by (eapply prefix_lookup; eassumption).
    exact Hs.
Qed.

Lemma keeps_for_of (h : list Cell) nm xs :
  length h <= nm -> Forall (text_element h) xs ->
  keeps h (for_of xs (convert_message nm)) (fun _ => True).
Proof.
  intros Hnm Hxs. induction Hxs as [|x xs Hx _ IH]; cbn [for_of].
  - apply keeps_ret. exact I.
  - eapply keeps_bind; [apply keeps_convert_message; [exact Hnm|exact Hx]|].
    intros _ _. exact IH.
Qed.

Lemma recognized_turns_cons o objs :
  recognized_turns (List.map role_and_content (o :: objs)) =
  match class_of_role (field "role" o) with
  | Some cls => (cls, field "content" o) :: recognized_turns (List.map role_and_content objs)
  | None => recognized_turns (List.map role_and_content objs)
  end.
Proof.
  unfold recognized_turns. cbn [List.map omap list_omap role_and_content fst snd].
  destruct (class_of_role (field "role" o)); reflexivity.
Qed.

(** The loop over the messages, for turns that are objects of the
    caller's heap: it appends to the new array, in order, a message for
    each turn with a recognized role. *)
Lemma for_of_objects (base : list Cell) nm turns : forall objs (hcur : list Cell) acc spec,
  Forall2 (turn_object base) turns objs ->
  Forall text_turn objs ->
  base `prefix_of` hcur -> length base <= nm ->
  hcur !! nm = Some (CArray acc) ->
  Forall2 (message_ref hcur nm) acc spec ->
  exists (hfin : list Cell) accfin,
    for_of turns (convert_message nm) hcur = (Ok tt, hfin) /\
    base `prefix_of` hfin /\
    hfin !! nm = Some (CArray accfin) /\
    Forall2 (message_ref hfin nm) accfin
            (spec ++ recognized_turns (List.map role_and_content objs)).
Proof.
  induction turns as [|v turns IH];
    intros objs hcur acc spec Hturns Htext Hpre Hnm Hcell Hacc.
  - apply Forall2_nil_inv_l in Hturns as ->. cbn. rewrite app_nil_r. eauto 10.
  - apply Forall2_cons_inv_l in Hturns as (o & objs' & (l & c & -> & Hl) & Hturns & ->).
    apply Forall_cons in Htext as [Ho Htext].
    cbn [for_of]. unfold bind.
    rewrite (convert_message_object hcur nm l c o acc
               (prefix_lookup _ _ _ _ Hpre Hl) Hcell Ho).
    rewrite recognized_turns_cons.
    assert (Hlen : nm < length hcur) by (eapply lookup_lt_Some, Hcell).
    destruct (class_of_role (field "role" o)) as [cls|] eqn:Hcls.
    + destruct Ho as [s Hs]; [rewrite Hcls; discriminate|]. rewrite Hs.
      set (hnew := <[nm := CArray (acc ++ [VRef (length hcur + 3)])]>
                     (hcur ++ message_cells cls s (length hcur))).
      assert (Hstable : forall l' y, nm < l' -> message_at hcur (VRef l') = Some y ->
                                     message_at hnew (VRef l') = Some y).
      { intros l' y Hl' Hm. unfold message_at, hnew, Heap, loc in *.
        rewrite list_lookup_insert_ne by lia.
        revert Hm. destruct (hcur !! l') as [cell|] eqn:Hc; intros Hm;
          [|discriminate Hm].
        rewrite (lookup_app_l_Some _ _ _ _ Hc). exact Hm. }
      destruct (IH objs' hnew (acc ++ [VRef (length hcur + 3)])
                  (spec ++ [(cls, VStr s)])) as (hfin & accfin & H1 & H2 & H3 & H4).
      * exact Hturns.
      * exact Htext.
      * unfold hnew. apply prefix_store; [apply prefix_app_r, Hpre|exact Hnm].
      * exact Hnm.
      * unfold hnew. apply list_lookup_insert_eq. rewrite length_app. lia.
      * apply Forall2_app.
        -- eapply Forall2_impl; [exact Hacc|].
           intros v' y (l' & -> & Hl' & Hm). exists l'. auto.
        -- constructor; [|constructor]. exists (length hcur + 3).
           split; [reflexivity|]. split; [lia|].
           unfold message_at, hnew, Heap, loc. rewrite list_lookup_insert_ne by lia.
           rewrite lookup_app_r by lia.
           replace (length hcur + 3 - length hcur) with 3 by lia. reflexivity.
      * exists hfin, accfin. rewrite <- app_assoc in H4. cbn [app] in H4. auto.
    + destruct (IH objs' hcur acc spec Hturns Htext Hpre Hnm Hcell Hacc)
        as (hfin & accfin & H1 & H2 & H3 & H4).
      exists hfin, accfin. auto.
Qed.

(** What [transformProps] computes for a request that is an object: a
    copy of it at the end of the heap, with, when its [messages] are an
    array, that field set to a new array filled by the loop. *)
Lemma transformProps_object (h : list Cell) forwardedProps cls fs :
  h !! forwardedProps = Some (CObject cls fs) ->
  let copy := length h in
  let h1 := h ++ [CObject PlainObject fs] in
  let messages := field "messages" fs in
  transformProps forwardedProps h =
  if truthy messages && is_array h1 messages then
    match for_of (elements h1 messages) (convert_message (S copy))
                 (h1 ++ [CArray []]) with
    | (Ok _, h3) =>
        (Ok copy, snd (set_prop copy "messages" (VRef (S copy)) h3))
    | (Throw e, h3) => (Throw e, h3)
    end
  else (Ok copy, h1).
Proof.
  intros Hfp. cbn zeta.
  set (h1 := h ++ [CObject PlainObject fs]). set (messages := field "messages" fs).
  unfold transformProps, alloc, get_prop, bind, get, lift, ret. cbn [read_prop].
  rewrite (cell_at_lookup _ _ _ Hfp). cbn [own_fields]. fold h1.
  rewrite (cell_at_lookup h1 forwardedProps (CObject cls fs))
    by (apply lookup_app_l_Some, Hfp).
  fold messages.
  destruct (truthy messages && is_array h1 messages); [|reflexivity].
  assert (Hlen1 : length h1 = S (length h))
    by (unfold h1; rewrite length_app; cbn; lia).
  rewrite Hlen1.
  destruct (for_of (elements h1 messages) (convert_message (S (length h)))
                   (h1 ++ [CArray []])) as [[[]|e] h3]; [|reflexivity].
  cbn beta iota.
  assert (Hok : exists h4, set_prop (length h) "messages" (VRef (S (length h))) h3
                           = (Ok tt, h4)).
  { unfold set_prop, store, bind, get, modify, ret.
    destruct (cell_at h3 (length h)); eexists; reflexivity. }
  destruct Hok as [h4 ->]. reflexivity.
Qed.

(** The copy's [messages] are set in the copy, which the loop has left
    as it was. *)
Lemma set_messages (h h3 : list Cell) fs nm :
  (h ++ [CObject PlainObject fs]) `prefix_of` h3 ->
  snd (set_prop (length h) "messages" (VRef nm) h3) =
  <[length h := CObject PlainObject (set_field "messages" (VRef nm) fs)]> h3.
Proof.
  intros Hpre. unfold set_prop, store, bind, get, modify, ret.
  rewrite (cell_at_lookup h3 (length h) (CObject PlainObject fs)); [reflexivity|].
  eapply prefix_lookup; [exact Hpre|].
  rewrite lookup_app_r by lia. rewrite Nat.sub_diag. reflexivity.
Qed.

Lemma is_array_after_copy (h : list Cell) cell v :
  (forall es, cell <> CArray es) ->
  is_array (h ++ [cell]) v = is_array h v.
Proof.
  intros Hcell. destruct v as [| | | |a]; try reflexivity.
  unfold is_array, cell_at, Heap, loc.
  destruct (@lookup nat _ _ _ a h) as [c|] eqn:Ha.
  - rewrite (lookup_app_l_Some _ _ _ _ Ha). reflexivity.
  - apply lookup_ge_None in Ha. rewrite lookup_app_r by exact Ha.
    destruct (a - length h) as [|n]; cbn; [|reflexivity].
    destruct cell; [reflexivity|]. destruct (Hcell elems eq_refl).
Qed.

Lemma elements_after_copy (h : list Cell) cell v :
  is_array h v = true -> elements (h ++ [cell]) v = elements h v.
Proof.
  destruct v as [| | | |a]; try reflexivity.
  unfold is_array, elements, cell_at, Heap, loc.
  destruct (@lookup nat _ _ _ a h) as [c|] eqn:Ha; [|discriminate].
  rewrite (lookup_app_l_Some _ _ _ _ Ha). reflexivity.
Qed.

Lemma text_element_grows (h s : list Cell) v :
  h `prefix_of` s -> text_element h v -> text_element s v.
Proof.
  intros Hs. destruct v as [| | | |l]; try exact id.
  unfold text_element, Heap, loc.
  destruct (@lookup nat _ _ _ l h) as [c|] eqn:Hl; [|contradiction].
  rewrite (prefix_lookup _ _ _ _ Hs Hl). exact id.
Qed.

Lemma turn_objects_text (h : list Cell) turns objs :
  Forall2 (turn_object h) turns objs -> Forall text_turn objs ->
  Forall (text_element h) turns.
Proof.
  induction 1 as [|v o turns objs (l & c & -> & Hl) _ IH]; intros Ht;
    [constructor|].
  apply Forall_cons in Ht as [Ho Ht]. constructor; [|exact (IH Ht)].
  unfold text_element, Heap, loc in *. rewrite Hl. exact Ho.
Qed.

(** C7.  For a request whose [messages] are an array of turns as the
    inbound contract has them (objects; the content of a turn with one
    of the three roles is a string), [transformProps] succeeds, and the
    messages of the transformed request are, in the order of the turns,
    a user message for each turn with role user, an assistant message
    for each turn with role assistant and a system message for each
    turn with role system, each with the content of its turn; a turn
    with any other role leaves no message and raises no error, whatever
    its content. *)
Theorem transformProps_maps_roles :
  forall (h : list Cell) forwardedProps cls fs a turns objs,
    h !! forwardedProps = Some (CObject cls fs) ->
    field "messages" fs = VRef a ->
    h !! a = Some (CArray turns) ->
    Forall2 (turn_object h) turns objs ->
    Forall text_turn objs ->
    exists copy (h' : list Cell),
      transformProps forwardedProps h = (Ok copy, h') /\
      messages_of h' copy =
        Some (recognized_turns (List.map role_and_content objs)).
Proof.
  intros h forwardedProps cls fs a turns objs Hfp Hm Ha Hturns Htext.
  rewrite (transformProps_object h forwardedProps cls fs Hfp). cbn zeta.
  set (h1 := h ++ [CObject PlainObject fs]).
  assert (Ha1 : cell_at h1 a = CArray turns)
    by (apply cell_at_lookup, lookup_app_l_Some, Ha).
  rewrite Hm. unfold is_array, elements. rewrite Ha1. cbn [truthy andb].
  assert (Hlen1 : length h1 = S (length h))
    by (unfold h1; rewrite length_app; cbn; lia).
  destruct (for_of_objects h1 (S (length h)) turns objs (h1 ++ [CArray []]) [] [])
    as (hfin & accfin & Hrun & Hpre & Hcell & Hacc).
  - eapply Forall2_impl; [exact Hturns|].
    intros v o (l & c & -> & Hl). exists l, c. split; [reflexivity|].
    apply lookup_app_l_Some, Hl.
  - exact Htext.
  - apply prefix_alloc. reflexivity.
  - lia.
  - rewrite lookup_app_r by lia. rewrite Hlen1, Nat.sub_diag. reflexivity.
  - constructor.
  - rewrite Hrun, (set_messages h hfin fs _ Hpre).
    eexists _, _. split; [reflexivity|].
    assert (Hlenfin : S (length h) < length hfin) by (eapply lookup_lt_Some, Hcell).
    unfold messages_of, Heap, loc.
    rewrite list_lookup_insert_eq by lia.
    rewrite field_set_field.
    rewrite list_lookup_insert_ne by lia. rewrite Hcell.
    apply mapM_Some. cbn [app] in Hacc.
    eapply Forall2_impl; [exact Hacc|].
    intros v y (l & -> & Hl & Hmsg).
    unfold message_at, Heap, loc in *.
    rewrite list_lookup_insert_ne by lia. exact Hmsg.
Qed.

(** C9.  For a request whose turns are as the inbound contract has
    them (a message is made of a string content only), [transformProps]
    leaves every cell of the caller's heap as it was, the request and
    its list of turns among them, whether it returns or throws.  What
    it returns is a new object, not the request: it holds, under every
    key other than [messages], what the request holds under that key;
    its [messages] are a new array when the request's are an array, and
    what the request holds otherwise. *)
Theorem transformProps_leaves_request_intact :
  forall (h : list Cell) forwardedProps cls fs,
    h !! forwardedProps = Some (CObject cls fs) ->
    Forall (text_element h) (elements h (field "messages" fs)) ->
    let r := transformProps forwardedProps h in
    (forall l c, h !! l = Some c -> (snd r : list Cell) !! l = Some c) /\
    (forall copy,
        fst r = Ok copy ->
        copy <> forwardedProps /\
        h !! copy = None /\
        exists fs',
          (snd r : list Cell) !! copy = Some (CObject PlainObject fs') /\
          (forall k, k <> "messages" -> assoc k fs' = assoc k fs) /\
          (is_array h (field "messages" fs) = false -> fs' = fs) /\
          (is_array h (field "messages" fs) = true ->
           exists nm, field "messages" fs' = VRef nm /\ h !! nm = None)).
Proof.
  intros h forwardedProps cls fs Hfp Htext r.
  subst r. rewrite (transformProps_object h forwardedProps cls fs Hfp). cbn zeta.
  set (h1 := h ++ [CObject PlainObject fs]).
  rewrite (is_array_after_copy h (CObject PlainObject fs)) by discriminate.
  assert (Hfresh : forall n, length h <= n -> h !! n = None)
    by (intros n Hn; apply lookup_ge_None; exact Hn).
  assert (Hne : length h <> forwardedProps)
    by (apply lookup_lt_Some in Hfp; lia).
  assert (Hh1 : h `prefix_of` h1) by (apply prefix_alloc; reflexivity).
  destruct (is_array h (field "messages" fs)) eqn:Harr.
  - assert (Ht : truthy (field "messages" fs) = true).
    { destruct (field "messages" fs); try discriminate Harr. reflexivity. }
    rewrite Ht. cbn [andb].
    assert (Hel : elements h1 (field "messages" fs) = elements h (field "messages" fs))
      by (apply elements_after_copy, Harr).
    rewrite Hel.
    destruct (keeps_for_of h1 (S (length h)) (elements h (field "messages" fs))
                ltac:(unfold h1; rewrite length_app; cbn; lia)
                ltac:(eapply Forall_impl;
                        [exact Htext|intros v; apply text_element_grows, Hh1])
                (h1 ++ [CArray []]) (prefix_alloc _ _ _ (reflexivity h1)))
      as [Hpre _].
    destruct (for_of (elements h (field "messages" fs))
                (convert_message (S (length h))) (h1 ++ [CArray []]))
      as [[[]|e] h3]; cbn [fst snd] in *.
    + rewrite (set_messages h h3 fs _ Hpre).
      assert (Hlen3 : length h < length h3).
      { apply prefix_length in Hpre. unfold h1 in Hpre.
        rewrite length_app in Hpre. cbn in Hpre. lia. }
      split.
      { intros l c Hl. unfold Heap, loc in *.
        rewrite list_lookup_insert_ne by (apply lookup_lt_Some in Hl; lia).
        eapply prefix_lookup; [exact Hpre|]. apply lookup_app_l_Some, Hl. }
      intros copy [= <-]. split; [exact Hne|]. split; [apply Hfresh; lia|].
      eexists. split; [apply list_lookup_insert_eq; exact Hlen3|].
      split; [intros k Hk; apply assoc_set_field_ne, Hk|].
      split; [discriminate|]. intros _. exists (S (length h)).
      split; [apply field_set_field|apply Hfresh; lia].
    + split; [|intros copy [=]].
      intros l c Hl. eapply prefix_lookup; [exact Hpre|].
      apply lookup_app_l_Some, Hl.
  - rewrite andb_false_r. cbn [fst snd]. split.
    { intros l c Hl. apply lookup_app_l_Some, Hl. }
    intros copy [= <-]. split; [exact Hne|]. split; [apply Hfresh; lia|].
    exists fs. split.
    + unfold h1. rewrite lookup_app_r by lia. rewrite Nat.sub_diag. reflexivity.
    + split; [reflexivity|]. split; [reflexivity|discriminate].
Qed.

End PropsFacts.

Section PropsWitnesses.
Import Props.

Lemma transformProps_maps_roles_witness :
  let turn r c := CObject PlainObject [("role", VStr r); ("content", VStr c)] in
  let h : list Cell :=
    [CObject PlainObject [("model", VStr "m"); ("messages", VRef 1)];
     CArray [VRef 2; VRef 3; VRef 4];
     turn "user" "hi"; turn "tool" "t"; turn "assistant" "yo"] in
  exists copy (h' : list Cell),
    transformProps 0 h = (Ok copy, h') /\
    messages_of h' copy = Some [(HumanMessage, VStr "hi"); (AIMessage, VStr "yo")].
Proof.
  intros turn h.
  apply (transformProps_maps_roles h 0 PlainObject
           [("model", VStr "m"); ("messages", VRef 1)] 1
           [VRef 2; VRef 3; VRef 4]
           [[("role", VStr "user"); ("content", VStr "hi")];
            [("role", VStr "tool"); ("content", VStr "t")];
            [("role", VStr "assistant"); ("content", VStr "yo")]]).
  - reflexivity.
  - reflexivity.
  - reflexivity.
  - repeat constructor; eexists _, _; split; reflexivity.
  - repeat constructor; intros _; eexists; reflexivity.
Defined.

Lemma transformProps_leaves_request_intact_witness :
  let turn r c := CObject PlainObject [("role", VStr r); ("content", VStr c)] in
  let fs := [("model", VStr "m"); ("messages", VRef 1)] in
  let h : list Cell :=
    [CObject PlainObject fs; CArray [VRef 2; VRef 3]; turn "user" "hi"; turn "tool" "t"] in
  let r := transformProps 0 h in
  (forall l c, h !! l = Some c -> (snd r : list Cell) !! l = Some c) /\
  (forall copy,
      fst r = Ok copy ->
      copy <> 0 /\
      h !! copy = None /\
      exists fs',
        (snd r : list Cell) !! copy = Some (CObject PlainObject fs') /\
        (forall k, k <> "messages" -> assoc k fs' = assoc k fs) /\
        (is_array h (field "messages" fs) = false -> fs' = fs) /\
        (is_array h (field "messages" fs) = true ->
         exists nm, field "messages" fs' = VRef nm /\ h !! nm = None)).
Proof.
  intros turn fs h.
  apply (transformProps_leaves_request_intact h 0 PlainObject fs).
  - reflexivity.
  - repeat constructor; intros _; eexists; reflexivity.
Defined.

End PropsWitnesses.

(* ===================================================================== *)
(** * Properties of the adapter                                           *)
(* ===================================================================== *)

Section AdapterFacts.
Import Props Adapter.

(** C8.  When the LangChain function returns a value that is neither a
    stream, nor a message chunk, nor a string, [stream] throws the error
    for an invalid return type, and returns no stream. *)
Theorem invalid_result_throws :
  forall (chainFn : loc -> M Heap ChainResult) forwardedProps
         (h h1 h2 : list Cell) p v,
    transformProps forwardedProps h = (Ok p, h1) ->
    chainFn p h1 = (Ok (Plain v), h2) ->
    (forall s, v <> JStr s) ->
    stream chainFn forwardedProps h =
      (Throw (Error "Invalid return type from LangChain function."), h2) /\
    forall w, fst (stream chainFn forwardedProps h) <> Ok w.
Proof.
  intros chainFn forwardedProps h h1 h2 p v Ht Hc Hv.
  assert (Hs : stream chainFn forwardedProps h =
               (Throw (Error "Invalid return type from LangChain function."), h2)).
  { unfold stream, bind, lift. rewrite Ht, Hc.
    destruct v; try reflexivity. destruct (Hv s eq_refl). }
  split; [exact Hs|]. intros w. rewrite Hs. discriminate.
Qed.

Lemma invalid_result_throws_witness :
  let h : list Cell := [CObject PlainObject [("model", VStr "m")]] in
  let chainFn : loc -> M Heap ChainResult :=
    fun _ => ret (Plain (JObj [("text", JStr "hi")])) in
  stream chainFn 0 h =
    (Throw (Error "Invalid return type from LangChain function."),
     h ++ [CObject PlainObject [("model", VStr "m")]]) /\
  forall w, fst (stream chainFn 0 h) <> Ok w.
Proof.
  intros h chainFn.
  apply (invalid_result_throws chainFn 0 h
           (h ++ [CObject PlainObject [("model", VStr "m")]])
           (h ++ [CObject PlainObject [("model", VStr "m")]])
           1 (JObj [("text", JStr "hi")])).
  - reflexivity.
  - reflexivity.
  - intros s. discriminate.
Defined.

End AdapterFacts.

(* ===================================================================== *)
(** * Further properties of the output stream                             *)
(* ===================================================================== *)

(** A sink that can take no more frames never can again. *)
Lemma sink_shut_step w ev :
  can_close_or_enqueue (ctrl w) = false ->
  can_close_or_enqueue (ctrl (step w ev)) = false.
Proof.
  destruct ev; blast w; intros H; try discriminate H; reflexivity.
Qed.

Lemma sink_shut_run w evs :
  can_close_or_enqueue (ctrl w) = false ->
  can_close_or_enqueue (ctrl (run w evs)) = false /\
  emitted (run w evs) = emitted w.
Proof.
  revert w. induction evs as [|ev evs IH]; intros w H; [auto|].
  rewrite run_cons.
  destruct (IH (step w ev) (sink_shut_step w ev H)) as [H1 H2].
  split; [exact H1|]. rewrite H2, step_emitted. unfold new_frames. rewrite H.
  destruct ev, (mode w), (pull w), (reads w); apply app_nil_r.
Qed.

(** Once the stream is closed, errored, or asked to close, every later
    [controller.enqueue] of the pull loop is refused: the frames emitted
    so far are all the frames there will ever be, whatever the upstream
    still yields and whatever the consumer does. *)
Theorem nothing_emitted_once_shut :
  forall w evs,
    can_close_or_enqueue (ctrl w) = false ->
    emitted (run w evs) = emitted w /\
    can_close_or_enqueue (ctrl (run w evs)) = false.
Proof.
  intros w evs H. destruct (sink_shut_run w evs H). auto.
Qed.

Lemma nothing_emitted_once_shut_witness :
  let w := run (fresh StreamPull
                  [ReadValue (fragment_with_content "a");
                   ReadValue (fragment_with_content "b")] [])
               [PlatformPull; UpstreamSettles; ConsumerCancel] in
  emitted (run w [UpstreamSettles; ConsumerRead; PlatformPull]) = emitted w /\
  can_close_or_enqueue (ctrl (run w [UpstreamSettles; ConsumerRead; PlatformPull]))
    = false.
Proof.
  intros w.
  apply (nothing_emitted_once_shut w [UpstreamSettles; ConsumerRead; PlatformPull]).
  reflexivity.
Defined.

(** When the consumer cancels while the pull loop is waiting for the
    upstream, [cancel] calls [reader.cancel()]; when the pending read
    then settles, with a fragment, the end or a failure, the loop's
    [enqueue] or the failure lands in the [catch], whose [cleanup] calls
    [reader.cancel()] a second time.  No frame is emitted, the stream
    stays closed and [pull] returns. *)
Theorem cancel_during_read_cancels_cursor_twice :
  forall w r rest,
    mode w = StreamPull -> pull w = AwaitingRead ->
    state (ctrl w) = Readable -> reads w = r :: rest ->
    let w' := run w [ConsumerCancel; UpstreamSettles] in
    cancel_calls w' = cancel_calls w + 2 /\
    emitted w' = emitted w /\
    pull w' = Returned /\
    state (ctrl w') = Closed /\
    reads w' = rest.
Proof.
  intros w r rest Hm Hp Hs Hr. unfold cancel_calls, emitted, run.
  cbn [fold_left].
  destruct w as [m [s cr q rr] rs cs p t]; cbn in Hm, Hp, Hs, Hr; subst.
  destruct r as [v| |e]; unfold_ops; cbn; repeat (split_var; cbn); tr;
    repeat split; lia.
Qed.

Lemma cancel_during_read_cancels_cursor_twice_witness :
  let w := run (fresh StreamPull [ReadDone] []) [PlatformPull; ConsumerRead] in
  let w' := run w [ConsumerCancel; UpstreamSettles] in
  cancel_calls w' = cancel_calls w + 2 /\
  emitted w' = emitted w /\
  pull w' = Returned /\
  state (ctrl w') = Closed /\
  reads w' = [].
Proof.
  intros w.
  apply (cancel_during_read_cancels_cursor_twice w ReadDone []); reflexivity.
Defined.

Lemma cancelled_early_step w ev :
  mode w = StreamPull /\ pull w = NotStarted /\ state (ctrl w) = Closed /\
  emitted w = [] /\ cancel_calls w = 1 /\
  (exists n, observed w = repeat EndOfStream n) ->
  mode (step w ev) = StreamPull /\ pull (step w ev) = NotStarted /\
  state (ctrl (step w ev)) = Closed /\
  emitted (step w ev) = [] /\ cancel_calls (step w ev) = 1 /\
  (exists n, observed (step w ev) = repeat EndOfStream n).
Proof.
  intros (Hm & Hp & Hs & He & Hc & n & Ho).
  unfold emitted, observed, cancel_calls in *.
  destruct w as [m [s cr q rr] rs cs p t]; cbn in Hm, Hp, Hs, He, Hc, Ho; subst.
  destruct ev; unfold_ops; cbn; repeat (split_var; cbn); tr;
    rewrite ?He, ?Hc, ?Ho;
    repeat (split; [reflexivity|]);
    first [ exists n; reflexivity
          | exists (n + 1); rewrite repeat_app; reflexivity ].
Qed.

(** Cancelling a stream of [streamResult] before the platform has called
    [pull] cancels the upstream cursor exactly once; [pull] is then
    never started, no frame is ever emitted, and every read of the
    consumer reports the end of the stream. *)
Theorem cancel_before_pull :
  forall rs cs evs,
    let w := run (fresh StreamPull rs cs) (ConsumerCancel :: evs) in
    pull w = NotStarted /\
    state (ctrl w) = Closed /\
    emitted w = [] /\
    cancel_calls w = 1 /\
    reads w = rs /\
    exists n, observed w = repeat EndOfStream n.
Proof.
  intros rs cs evs w. subst w. rewrite run_cons.
  assert (H0 : let w1 := step (fresh StreamPull rs cs) ConsumerCancel in
               (mode w1 = StreamPull /\ pull w1 = NotStarted /\
                state (ctrl w1) = Closed /\ emitted w1 = [] /\
                cancel_calls w1 = 1 /\
                (exists n, observed w1 = repeat EndOfStream n)) /\
               reads w1 = rs).
  { destruct cs as [|[|e] cs]; cbn;
      (split; [repeat (split; [reflexivity|]); exists 0; reflexivity|reflexivity]). }
  cbn zeta in H0. revert H0.
  generalize (step (fresh StreamPull rs cs) ConsumerCancel) as w1.
  induction evs as [|ev evs IH]; intros w1 [H Hr].
  - destruct H as (_ & Hp & Hs & He & Hc & Ho). cbn. auto 10.
  - rewrite run_cons. apply IH. split; [apply cancelled_early_step, H|].
    rewrite step_reads. unfold next_reads.
    destruct H as (_ & Hp & _). rewrite Hp, Hr. destruct ev, (mode w1); reflexivity.
Qed.

Lemma returned_shut_step w ev :
  (pull w = Returned -> can_close_or_enqueue (ctrl w) = false) ->
  pull (step w ev) = Returned ->
  can_close_or_enqueue (ctrl (step w ev)) = false.
Proof.
  destruct ev; blast w; intros H Hp; try discriminate Hp; try reflexivity;
    try (discriminate (H eq_refl)); try (exact (H eq_refl));
    exact (H Hp).
Qed.

(** When [pull] returns, the sink can take no more frames: its
    controller was closed, or the stream was errored, or the stream had
    been cancelled.  So the platform never calls [pull] again, the loop
    over the upstream runs once, and nothing is emitted after [pull]
    has returned. *)
Theorem pull_returns_with_sink_shut :
  forall up w0 evs,
    streamResult up = Ok w0 ->
    pull (run w0 evs) = Returned ->
    can_close_or_enqueue (ctrl (run w0 evs)) = false /\
    step (run w0 evs) PlatformPull = run w0 evs /\
    forall evs', emitted (run (run w0 evs) evs') = emitted (run w0 evs).
Proof.
  intros up w0 evs H Hp. apply streamResult_fresh in H as ->.
  assert (Hinv : forall w evs,
             (pull w = Returned -> can_close_or_enqueue (ctrl w) = false) ->
             pull (run w evs) = Returned ->
             can_close_or_enqueue (ctrl (run w evs)) = false).
  { clear. intros w evs. revert w.
    induction evs as [|ev evs IH]; intros w Hw Hp; [exact (Hw Hp)|].
    rewrite run_cons in *. apply IH; [|exact Hp].
    apply returned_shut_step, Hw. }
  assert (Hshut := Hinv (fresh StreamPull (read_script up) (cancel_script up)) evs
                     ltac:(intros Hx; discriminate Hx) Hp).
  split; [exact Hshut|]. split.
  - revert Hp. generalize (run (fresh StreamPull (read_script up) (cancel_script up)) evs).
    intros w Hp. destruct w as [m c rs cs p t]. cbn in Hp. subst p.
    destruct m; reflexivity.
  - intros evs'. apply sink_shut_run, Hshut.
Qed.

Lemma pull_returns_with_sink_shut_witness :
  let up := mkUpstream false [ReadValue (fragment_with_content "a"); ReadDone] [] in
  let w0 := fresh StreamPull [ReadValue (fragment_with_content "a"); ReadDone] [] in
  let evs := [PlatformPull; UpstreamSettles; UpstreamSettles] in
  can_close_or_enqueue (ctrl (run w0 evs)) = false /\
  step (run w0 evs) PlatformPull = run w0 evs /\
  forall evs', emitted (run (run w0 evs) evs') = emitted (run w0 evs).
Proof.
  intros up w0 evs.
  apply (pull_returns_with_sink_shut up w0 evs); reflexivity.
Defined.

(** ** The consumer gets every frame of a stream that ends normally *)

Lemma settled_step w ev :
  is_consumer_cancel ev = false ->
  fifo w -> next_read_good w -> settled w -> settled (step w ev).
Proof.
  unfold fifo, next_read_good, settled, open, emitted, observed.
  destruct ev; try discriminate; intros _; blast w;
    intros (pend & Hfe & Hfq) Hg Hs Hp; try discriminate Hp;
    try (destruct (Hg eq_refl) as [Ho Hr]; clear Hg);
    try discriminate Ho; try (exfalso; apply Hr; reflexivity).
  all: first [specialize (Hs Hp) | specialize (Hs eq_refl) | clear Hs];
    try exact Hs.
  all: try (destruct Hs as [[Hst He]|(Hst & Hcr & Hq & He)];
            try discriminate Hst; try discriminate Hcr; try congruence).
  all: try (destruct (Hfq eq_refl) as [-> Hrq]; clear Hfq).
  all: try (destruct Hrq as [Hrq|Hrq]; try discriminate Hrq; subst).
  all: tr; rewrite ?He, ?Hfe, ?app_nil_r, <- ?app_assoc.
  all: try (first [ left; split; [reflexivity|]; reflexivity
                  | right; split; [reflexivity|]; split; [reflexivity|];
                    split; [discriminate|]; reflexivity ]).
Qed.

Lemma normal_phase_next_read_good vs rest w :
  Forall (fun v => nullish v = false) vs ->
  normal_phase vs rest w -> next_read_good w.
Proof.
  intros Hvs [_ Hph] Hp. rewrite Hp in Hph.
  destruct Hph as (Ho & _ & k & Hk & Hr & _). split; [exact Ho|].
  pose proof (normal_script_next vs rest k Hk) as Hnext. rewrite Hr.
  destruct (vs !! k) as [v|] eqn:Hv.
  - destruct Hnext as (-> & _). cbn.
    rewrite (Forall_lookup_1 _ _ _ _ Hvs Hv). discriminate.
  - destruct Hnext as (-> & _). cbn. discriminate.
Qed.

Lemma settled_run vs rest w evs :
  Forall (fun v => nullish v = false) vs -> no_cancel evs ->
  normal_phase vs rest w -> fifo w -> settled w ->
  settled (run w evs).
Proof.
  intros Hvs. revert w.
  induction evs as [|ev evs IH]; intros w Hn Hph Hf Hs; [exact Hs|].
  apply no_cancel_cons in Hn as [Hc Hn]. rewrite run_cons.
  apply IH; [exact Hn|apply normal_phase_step; assumption|apply fifo_step, Hf|].
  apply settled_step; try assumption.
  eapply normal_phase_next_read_good; eassumption.
Qed.

(** Reading a stream whose close is requested until its queue is empty
    hands over the queued frames in order and closes the stream. *)
Lemma drain q : forall w,
  state (ctrl w) = Readable -> closeRequested (ctrl w) = true ->
  queue (ctrl w) = q -> q <> [] ->
  let w' := run w (repeat ConsumerRead (length q)) in
  state (ctrl w') = Closed /\
  chunks_of (observed w') = chunks_of (observed w) ++ q /\
  pull w' = pull w.
Proof.
  induction q as [|f q IH]; intros w Hs Hc Hq Hne; [congruence|].
  cbn [length repeat]. cbn zeta. rewrite run_cons.
  destruct w as [m [s cr qu rr] rs cs p t].
  cbn in Hs, Hc, Hq. subst s cr qu.
  destruct q as [|f' q].
  - cbn. unfold observed. cbn. tr. auto.
  - specialize (IH (step (mkWorld m (mkController Readable true (f :: f' :: q) rr)
                                  rs cs p t) ConsumerRead)).
    cbn in IH. destruct IH as (H1 & H2 & H3); try reflexivity; [discriminate|].
    split; [exact H1|]. split; [|exact H3].
    cbn. rewrite H2. unfold observed. cbn. tr. rewrite <- app_assoc. reflexivity.
Qed.

(** A stream over an upstream that yields its fragments and then ends
    loses no frame: when the consumer does not cancel and keeps reading,
    it is handed the content frame of every fragment, in order, then
    the terminal frame, and the stream is then closed, so that its next
    read reports the end. *)
Theorem consumer_receives_every_frame :
  forall vs rest cs evs,
    Forall (fun v => nullish v = false) vs ->
    no_cancel evs ->
    length vs + 1 <= settles_after_pull evs ->
    let w := run (fresh StreamPull (normal_script vs rest) cs) evs in
    exists n,
      let w' := run w (repeat ConsumerRead n) in
      chunks_of (observed w') = List.map fragment_payload vs ++ [DONE_payload] /\
      state (ctrl w') = Closed /\
      observed (step w' ConsumerRead) = observed w' ++ [EndOfStream].
Proof.
  intros vs rest cs evs Hvs Hn Hlen w.
  destruct (normal_completion vs rest cs evs Hvs Hn Hlen) as (Hp & He & _).
  fold w in Hp, He.
  assert (Hs : settled w).
  { apply (settled_run vs rest); try assumption.
    - apply normal_phase_fresh.
    - apply fifo_fresh.
    - intros Hx. discriminate Hx. }
  assert (Hend : forall w', state (ctrl w') = Closed ->
                            observed (step w' ConsumerRead) = observed w' ++ [EndOfStream]).
  { intros [m [s cr q rr] rs' cs' p t] Hst. cbn in Hst. subst s.
    unfold observed. cbn. tr. reflexivity. }
  destruct (Hs Hp) as [[Hst Hobs]|(Hst & Hcr & Hq & Hobs)].
  - exists 0. cbn. rewrite <- Hobs, He. auto.
  - exists (length (queue (ctrl w))).
    destruct (drain (queue (ctrl w)) w Hst Hcr eq_refl Hq) as (H1 & H2 & _).
    cbn zeta. rewrite H2, <- Hobs, He. auto.
Qed.

Lemma consumer_receives_every_frame_witness :
  let w := run (fresh StreamPull
                  (normal_script [fragment_with_content "a"] []) [])
               [PlatformPull; UpstreamSettles; UpstreamSettles] in
  exists n,
    let w' := run w (repeat ConsumerRead n) in
    chunks_of (observed w') =
      List.map fragment_payload [fragment_with_content "a"] ++ [DONE_payload] /\
    state (ctrl w') = Closed /\
    observed (step w' ConsumerRead) = observed w' ++ [EndOfStream].
Proof.
  apply (consumer_receives_every_frame [fragment_with_content "a"] [] []
           [PlatformPull; UpstreamSettles; UpstreamSettles]).
  - repeat constructor.
  - reflexivity.
  - cbn. lia.
Defined.

(* ===================================================================== *)
(** * Further properties of the frames and of the adapter                 *)
(* ===================================================================== *)




Section AdapterMore.
Import Props Adapter.

(** A failure before the stream exists is thrown by [stream] itself and
    leaves no stream: what [transformProps] throws is thrown before the
    LangChain function is called, whatever that function is, and what
    the LangChain function throws is thrown on. *)
Theorem failure_before_stream_is_thrown :
  forall (chainFn : loc -> M Heap ChainResult) forwardedProps (h : list Cell),
    (forall e h1,
        transformProps forwardedProps h = (Throw e, h1) ->
        forall other : loc -> M Heap ChainResult,
          stream other forwardedProps h = (Throw e, h1)) /\
    (forall p h1 e h2,
        transformProps forwardedProps h = (Ok p, h1) ->
        chainFn p h1 = (Throw e, h2) ->
        stream chainFn forwardedProps h = (Throw e, h2)) /\
    (forall p h1 up h2,
        transformProps forwardedProps h = (Ok p, h1) ->
        chainFn p h1 = (Ok (IterableReadableStream up), h2) ->
        locked up = true ->
        exists e, stream chainFn forwardedProps h = (Throw e, h2)).
Proof.
  intros chainFn forwardedProps h. split; [|split].
  - intros e h1 Ht other. unfold stream, bind. rewrite Ht. reflexivity.
  - intros p h1 e h2 Ht Hc. unfold stream, bind. rewrite Ht, Hc. reflexivity.
  - intros p h1 up h2 Ht Hc Hl. unfold stream, bind, lift. rewrite Ht, Hc.
    cbn. unfold streamResult. rewrite Hl. eexists. reflexivity.
Qed.

Lemma failure_before_stream_is_thrown_witness :
  let h : list Cell :=
    [CObject PlainObject [("messages", VRef 1)]; CArray [VNull]] in
  let h0 : list Cell := [CObject PlainObject []] in
  (forall other : loc -> M Heap ChainResult,
      fst (stream other 0 h) =
      Throw (TypeError "Cannot read properties of undefined or null: role")) /\
  stream (fun _ => throw (Error "model down")) 0 h0 =
    (Throw (Error "model down"), h0 ++ [CObject PlainObject []]) /\
  (exists e,
      stream (fun _ => ret (IterableReadableStream (mkUpstream true [] []))) 0 h0 =
      (Throw e, h0 ++ [CObject PlainObject []])).
Proof.
  intros h h0. split; [|split].
  - intros other.
    rewrite (proj1 (failure_before_stream_is_thrown other 0 h)
               (TypeError "Cannot read properties of undefined or null: role")
               (h ++ [CObject PlainObject [("messages", VRef 1)]; CArray []])
               eq_refl other).
    reflexivity.
  - apply (proj1 (proj2 (failure_before_stream_is_thrown
                           (fun _ => throw (Error "model down")) 0 h0))
             1 (h0 ++ [CObject PlainObject []])); reflexivity.
  - apply (proj2 (proj2 (failure_before_stream_is_thrown
                           (fun _ => ret (IterableReadableStream (mkUpstream true [] [])))
                           0 h0))
             1 (h0 ++ [CObject PlainObject []]) (mkUpstream true [] []));
      reflexivity.
Defined.


End AdapterMore.

Section PropsMore.
Import Props.

Lemma for_of_app xs ys body (h : list Cell) :
  for_of (xs ++ ys) body h =
  match for_of xs body h with
  | (Ok _, h') => for_of ys body h'
  | (Throw e, h') => (Throw e, h')
  end.
Proof.
  revert h. induction xs as [|x xs IH]; intros h; [reflexivity|].
  cbn [app for_of]. unfold bind.
  destruct (body x h) as [[[]|e] h']; [apply IH|reflexivity].
Qed.

(** A turn that is [null] or [undefined] makes [transformProps] throw a
    [TypeError], at that turn: the turns before it (objects; a string
    for the content of each that has one of the three roles) have been
    converted, the turns after it are not looked at, no transformed
    request is returned, and the caller's heap is as it was. *)
Theorem transformProps_null_turn_throws :
  forall (h : list Cell) forwardedProps cls fs a turns objs v rest,
    h !! forwardedProps = Some (CObject cls fs) ->
    field "messages" fs = VRef a ->
    h !! a = Some (CArray (turns ++ v :: rest)) ->
    Forall2 (turn_object h) turns objs ->
    Forall text_turn objs ->
    nullish v = true ->
    exists (h' : list Cell),
      transformProps forwardedProps h =
        (Throw (TypeError "Cannot read properties of undefined or null: role"), h') /\
      (forall l c, h !! l = Some c -> h' !! l = Some c) /\
      forall rest',
        fst (transformProps forwardedProps
               (<[a := CArray (turns ++ v :: rest')]> h)) =
        Throw (TypeError "Cannot read properties of undefined or null: role").
Proof.
  intros h forwardedProps cls fs a turns objs v rest Hfp Hm Ha Hturns Htext Hv.
  assert (Hthrow : forall (h0 : list Cell) rest0,
             h0 !! forwardedProps = Some (CObject cls fs) ->
             h0 !! a = Some (CArray (turns ++ v :: rest0)) ->
             Forall2 (turn_object h0) turns objs ->
             exists h', transformProps forwardedProps h0 =
                        (Throw (TypeError "Cannot read properties of undefined or null: role"), h') /\
                        h0 `prefix_of` h').
  { clear h Hfp Ha Hturns. intros h rest0 Hfp Ha Hturns.
    rewrite (transformProps_object h forwardedProps cls fs Hfp). cbn zeta.
    set (h1 := h ++ [CObject PlainObject fs]).
    assert (Ha1 : cell_at h1 a = CArray (turns ++ v :: rest0))
      by (apply cell_at_lookup, lookup_app_l_Some, Ha).
    rewrite Hm. unfold is_array, elements. rewrite Ha1. cbn [truthy andb].
    assert (Hlen1 : length h1 = S (length h))
      by (unfold h1; rewrite length_app; cbn; lia).
    destruct (for_of_objects h1 (S (length h)) turns objs (h1 ++ [CArray []]) [] [])
      as (hfin & accfin & Hrun & Hpre & _).
    - eapply Forall2_impl; [exact Hturns|].
      intros v0 o (l & c & -> & Hl). exists l, c. split; [reflexivity|].
      apply lookup_app_l_Some, Hl.
    - exact Htext.
    - apply prefix_alloc. reflexivity.
    - lia.
    - rewrite lookup_app_r by lia. rewrite Hlen1, Nat.sub_diag. reflexivity.
    - constructor.
    - rewrite for_of_app, Hrun. cbn [for_of]. unfold bind.
      assert (Hc : convert_message (S (length h)) v hfin =
                   (Throw (TypeError "Cannot read properties of undefined or null: role"),
                    hfin)).
      { destruct v; try discriminate Hv; reflexivity. }
      rewrite Hc. eexists. split; [reflexivity|].
      etransitivity; [|exact Hpre]. apply prefix_alloc. reflexivity. }
  destruct (Hthrow h rest Hfp Ha Hturns) as (h' & Hh' & Hpre).
  exists h'. split; [exact Hh'|]. split.
  - intros l c Hl. eapply prefix_lookup; [exact Hpre|exact Hl].
  - intros rest'.
    assert (Hne : a <> forwardedProps).
    { intros ->. unfold Heap, loc in *. rewrite Hfp in Ha. discriminate Ha. }
    assert (Hlt : a < length h) by (eapply lookup_lt_Some, Ha).
    destruct (Hthrow (<[a := CArray (turns ++ v :: rest')]> h) rest') as (h2 & Hh2 & _).
    + unfold Heap, loc in *. rewrite list_lookup_insert_ne by exact Hne. exact Hfp.
    + unfold Heap, loc in *. apply list_lookup_insert_eq. exact Hlt.
    + eapply Forall2_impl; [exact Hturns|].
      intros v0 o (l & c & -> & Hl). exists l, c. split; [reflexivity|].
      unfold Heap, loc in *. rewrite list_lookup_insert_ne; [exact Hl|].
      intros <-. rewrite Ha in Hl. discriminate Hl.
    + rewrite Hh2. reflexivity.
Qed.

Lemma transformProps_null_turn_throws_witness :
  let turn r c := CObject PlainObject [("role", VStr r); ("content", VStr c)] in
  let h : list Cell :=
    [CObject PlainObject [("messages", VRef 1)];
     CArray [VRef 2; VNull; VRef 2];
     turn "user" "hi"] in
  exists (h' : list Cell),
    transformProps 0 h =
      (Throw (TypeError "Cannot read properties of undefined or null: role"), h') /\
    (forall l c, h !! l = Some c -> h' !! l = Some c).
Proof.
  intros turn h.
  destruct (transformProps_null_turn_throws h 0 PlainObject
              [("messages", VRef 1)] 1 [VRef 2]
              [[("role", VStr "user"); ("content", VStr "hi")]]
              VNull [VRef 2])
    as (h' & H1 & H2 & _).
  - reflexivity.
  - reflexivity.
  - reflexivity.
  - repeat constructor. eexists _, _. split; reflexivity.
  - repeat constructor. intros _. eexists. reflexivity.
  - reflexivity.
  - exists h'. split; assumption.
Defined.

End PropsMore.

(** ** One record per frame *)

Lemma list_ascii_of_string_app a b :
  list_ascii_of_string (a +:+ b) = list_ascii_of_string a ++ list_ascii_of_string b.
Proof.
  induction a as [|c a IH]; [reflexivity|].
  change (String c a +:+ b) with (String c (a +:+ b)).
  cbn [list_ascii_of_string]. rewrite IH. reflexivity.
Qed.

Lemma no_newline_app a b : no_newline a -> no_newline b -> no_newline (a +:+ b).
Proof.
  unfold no_newline. intros Ha Hb. rewrite list_ascii_of_string_app.
  apply Forall_app. split; assumption.
Qed.

Lemma no_newline_escape_char c : no_newline (escape_char c).
Proof.
  destruct c as [[] [] [] [] [] [] [] []]; vm_compute;
    repeat (apply List.Forall_cons; [discriminate|]); apply List.Forall_nil.
Qed.

Lemma no_newline_escape s : no_newline (escape s).
Proof.
  induction s as [|c s IH]; cbn [escape]; [apply List.Forall_nil|].
  apply no_newline_app; [apply no_newline_escape_char|exact IH].
Qed.

Lemma no_newline_literal s :
  forallb (fun c => negb (Ascii.eqb c newline)) (list_ascii_of_string s) = true ->
  no_newline s.
Proof.
  unfold no_newline. induction (list_ascii_of_string s) as [|c l IH]; cbn; intros H;
    [apply List.Forall_nil|].
  apply andb_prop in H as [Hc Hl]. apply List.Forall_cons; [|apply IH, Hl].
  intros ->. rewrite Ascii.eqb_refl in Hc. discriminate Hc.
Qed.

Lemma no_newline_quote s : no_newline (quote s).
Proof.
  unfold quote.
  change (String dquote (escape s +:+ String dquote EmptyString))
    with (String dquote EmptyString +:+ (escape s +:+ String dquote EmptyString)).
  apply no_newline_app; [apply no_newline_literal; reflexivity|].
  apply no_newline_app; [apply no_newline_escape|apply no_newline_literal; reflexivity].
Qed.

Lemma no_newline_join sep l :
  no_newline sep -> List.Forall no_newline l -> no_newline (join sep l).
Proof.
  intros Hsep Hl. induction Hl as [|x l Hx Hl IH]; [apply List.Forall_nil|].
  cbn [join]. destruct l as [|y l]; [exact Hx|].
  apply no_newline_app; [exact Hx|]. apply no_newline_app; [exact Hsep|exact IH].
Qed.

(** [JSON.stringify] writes no line feed: in a string it writes the
    escape for it. *)
Lemma serialize_no_newline : forall v s, serialize v = Some s -> no_newline s.
Proof.
  fix IH 1. intros v s. destruct v as [| |b|str|elems|fields]; cbn [serialize].
  - discriminate.
  - intros [= <-]. apply no_newline_literal. reflexivity.
  - intros [= <-]. destruct b; apply no_newline_literal; reflexivity.
  - intros [= <-]. apply no_newline_quote.
  - intros [= <-].
    apply no_newline_app; [apply no_newline_literal; reflexivity|].
    apply no_newline_app; [|apply no_newline_literal; reflexivity].
    apply no_newline_join; [apply no_newline_literal; reflexivity|].
    revert elems. fix IHl 1. intros [|x xs]; cbn [List.map].
    + apply List.Forall_nil.
    + apply List.Forall_cons; [|apply IHl].
      destruct (serialize x) as [t|] eqn:Hx;
        [exact (IH x t Hx)|apply no_newline_literal; reflexivity].
  - intros [= <-].
    apply no_newline_app; [apply no_newline_literal; reflexivity|].
    apply no_newline_app; [|apply no_newline_literal; reflexivity].
    apply no_newline_join; [apply no_newline_literal; reflexivity|].
    revert fields. fix IHl 1. intros [|[k x] xs];
      cbn [List.map List.concat fst snd].
    + apply List.Forall_nil.
    + destruct (serialize x) as [t|] eqn:Hx; cbn [app]; [|apply IHl].
      apply List.Forall_cons; [|apply IHl].
      apply no_newline_app; [apply no_newline_quote|].
      apply no_newline_app; [apply no_newline_literal; reflexivity|].
      exact (IH x t Hx).
Qed.

Lemma encode_app a b : encode (a +:+ b) = encode a ++ encode b.
Proof.
  unfold encode, list_byte_of_string.
  rewrite list_ascii_of_string_app. apply List.map_app.
Qed.

Local Transparent payload_of ChatCompletionChunk.

(** Every content frame is one record of the event stream: the text
    [data: ], the JSON text of the chunk, and two line feeds; and the
    JSON text holds no line feed, whatever the content and the function
    call of the fragment are, so that nothing in a fragment ends its
    record early. *)
Theorem content_frame_is_one_record :
  forall content functionCall,
    let json := JSON_stringify (ChatCompletionChunk content functionCall) in
    no_newline json /\
    payload_of (ChatCompletionChunk content functionCall) =
      encode "data: " ++ encode json ++ encode (nl +:+ nl).
Proof.
  intros content functionCall json. split.
  - apply (serialize_no_newline (ChatCompletionChunk content functionCall)).
    reflexivity.
  - unfold payload_of. fold json. rewrite !encode_app. reflexivity.
Qed.
